(** * Template-error recovery: a shallow embedding of the recovery core

    The development embeds the recovery core of the template validation
    tool (the extractor [createTemplateError], the bounded driver
    [parseInternal] and the execution translator [exec]) together with
    the pieces of the Go runtime it leans on: byte strings, the
    [strings] helpers, [strconv.Atoi] and the leftmost-first regular
    expression search of package [regexp].

    Go strings are byte sequences; they are modelled by [string], one
    [ascii] per byte.  Every pattern of the program starts with an
    ASCII byte and only ever stops in front of an ASCII byte, so
    matching byte by byte finds the same spans as Go's rune by rune
    matcher.  Go's [int] is modelled by [Z]: the only arithmetic is
    [depth + 1] (below [maxFixes]), [line - 1] on a converted value and
    index arithmetic on string offsets, none of which can wrap. *)

From Stdlib Require Import String Ascii List ZArith Lia Bool.
Import ListNotations.
Open Scope string_scope.
Open Scope Z_scope.

Set Implicit Arguments.

(** ** Results of code that may panic *)

Inductive PanicKind : Type :=
| IndexOutOfRange
| SliceOutOfRange
| BadFunctionName.

(** [OutOfFuel] is an artefact of the bounded recursion used to define
    [parseInternal]; [parseInternal_total] shows it is never produced. *)
Inductive Res (A : Type) : Type :=
| Ret (a : A)
| Panic (p : PanicKind)
| OutOfFuel.

Arguments Ret {A} a.
Arguments Panic {A} p.
Arguments OutOfFuel {A}.

Definition bind {A B : Type} (m : Res A) (f : A -> Res B) : Res B :=
  match m with
  | Ret a => f a
  | Panic p => Panic p
  | OutOfFuel => OutOfFuel
  end.

Notation "x <- m ;; f" := (bind m (fun x => f))
  (at level 61, m at next level, right associativity).
Notation "' pat <- m ;; f" := (bind m (fun x => match x with pat => f end))
  (at level 61, pat pattern, m at next level, right associativity).

(** ** Byte strings and Go's built-in operations on them *)

Definition newline : ascii := "010"%char.
Definition dquote : ascii := "034"%char.
Definition squote : ascii := "039"%char.

Definition len (s : string) : Z := Z.of_nat (String.length s).

(** [s[lo:hi]]: panics unless [0 <= lo <= hi <= len(s)]. *)
Definition slice (s : string) (lo hi : Z) : Res string :=
  if (0 <=? lo) && (lo <=? hi) && (hi <=? len s)
  then Ret (substring (Z.to_nat lo) (Z.to_nat (hi - lo)) s)
  else Panic SliceOutOfRange.

(** [xs[i]]: panics unless [0 <= i < len(xs)]. *)
Definition index {A : Type} (xs : list A) (i : Z) : Res A :=
  if i <? 0 then Panic IndexOutOfRange
  else match nth_error xs (Z.to_nat i) with
       | Some x => Ret x
       | None => Panic IndexOutOfRange
       end.

Fixpoint drop (n : nat) (s : string) : string :=
  match n with
  | O => s
  | S n' => match s with
            | String _ s' => drop n' s'
            | EmptyString => EmptyString
            end
  end.

(** ** Package [strings] *)

Module strings.

Fixpoint HasPrefix (s p : string) : bool :=
  match p with
  | EmptyString => true
  | String a p' =>
      match s with
      | String b s' => Ascii.eqb a b && HasPrefix s' p'
      | EmptyString => false
      end
  end.

(** [strings.Index]: offset of the first occurrence of [sub], or -1. *)
Fixpoint IndexFrom (i : Z) (s sub : string) : Z :=
  if HasPrefix s sub then i
  else match s with
       | String _ s' => IndexFrom (i + 1) s' sub
       | EmptyString => -1
       end.

Definition Index (s sub : string) : Z := IndexFrom 0 s sub.

(** [strings.LastIndex]: offset of the last occurrence of [sub], or -1. *)
Fixpoint LastIndexFrom (i : Z) (s sub : string) : Z :=
  let here := if HasPrefix s sub then i else -1 in
  match s with
  | String _ s' =>
      let later := LastIndexFrom (i + 1) s' sub in
      if later =? -1 then here else later
  | EmptyString => here
  end.

Definition LastIndex (s sub : string) : Z := LastIndexFrom 0 s sub.

(** [strings.Replace(s, old, new, 1)]: the first occurrence of [old]
    is replaced. *)
Fixpoint Replace1 (s old new : string) : string :=
  if HasPrefix s old then new ++ drop (String.length old) s
  else match s with
       | String a s' => String a (Replace1 s' old new)
       | EmptyString => EmptyString
       end.

(** The loop of [strings.Split] for a non-empty separator: cut at the
    first occurrence of [sep], go on behind it.  Every round consumes
    at least one byte, so [S (String.length s)] rounds are enough. *)
Fixpoint genSplit (fuel : nat) (s sep : string) : list string :=
  match fuel with
  | O => [s]
  | S fuel' =>
      let m := Index s sep in
      if m <? 0 then [s]
      else substring 0 (Z.to_nat m) s
           :: genSplit fuel' (drop (Z.to_nat m + String.length sep) s) sep
  end.

(** [strings.Split(s, sep)] for a non-empty separator; the program
    passes [": "] and [","].  The empty separator, which Go treats
    apart, is not covered. *)
Definition Split (s sep : string) : list string :=
  genSplit (S (String.length s)) s sep.

End strings.

(** ** Package [fmt] *)

Module fmt.

(** A field of [n] blanks. *)
Fixpoint blanks (n : nat) : string :=
  match n with
  | O => EmptyString
  | S n' => String " "%char (blanks n')
  end.

(** The widest field [Sprintf] takes from a format.  Reading the
    digits of a width, it gives up as soon as the number read so far
    is above one million and a further digit follows; the widest
    fields it accepts are therefore those of 10000000 to 10000009. *)
Definition maxWidth : Z := 10000009.

(** What [Sprintf] writes for a format whose width it gave up on, with
    the empty string as the operand left over: the mark of a missing
    verb, then the mark of an extra operand. *)
Definition noVerbExtra : string := "%!(NOVERB)%!(EXTRA string=)".

(** The replacement text of the empty-command healer.  The inner
    [Sprintf] writes the format: a percent sign, [n] in decimal, the
    verb [s].  The outer [Sprintf] writes the empty string by that
    format: in a field of the width read from it, that is as many
    blanks (a minus sign before the digits is the flag for alignment
    to the left, and leaves the width), or, when the width is above
    [maxWidth], the text [noVerbExtra]. *)
Definition SprintfPad (n : Z) : string :=
  if Z.abs n <=? maxWidth then blanks (Z.abs_nat n) else noVerbExtra.

End fmt.

(** ** Package [strconv] *)

Definition isDigit (c : ascii) : bool :=
  let n := nat_of_ascii c in (48 <=? n)%nat && (n <=? 57)%nat.

Definition digitVal (c : ascii) : Z := Z.of_nat (nat_of_ascii c) - 48.

(** Value of a run of decimal digits, most significant first;
    [None] on any other byte. *)
Fixpoint digitsFrom (acc : Z) (s : string) : option Z :=
  match s with
  | EmptyString => Some acc
  | String c s' =>
      if isDigit c then digitsFrom (10 * acc + digitVal c) s' else None
  end.

Definition maxInt : Z := 2 ^ 63 - 1.
Definition minInt : Z := - 2 ^ 63.

Module strconv.

(** [strconv.Atoi] on a 64-bit platform: an optional sign, then at
    least one decimal digit; [None] stands for a syntax or a range
    error. *)
Definition Atoi (s : string) : option Z :=
  let unsigned (t : string) : option Z :=
    match t with
    | EmptyString => None
    | _ => digitsFrom 0 t
    end in
  let ranged (v : option Z) : option Z :=
    match v with
    | Some n => if (minInt <=? n) && (n <=? maxInt) then Some n else None
    | None => None
    end in
  match s with
  | String "+"%char t => ranged (unsigned t)
  | String "-"%char t => ranged (option_map Z.opp (unsigned t))
  | _ => ranged (unsigned s)
  end.

Definition backslash : ascii := "092"%char.

Definition lowerhex (n : nat) : ascii :=
  match String.get n "0123456789abcdef" with
  | Some c => c
  | None => "0"%char
  end.

Definition escaped (letter : ascii) : string :=
  String backslash (String letter EmptyString).

(** [strconv.Quote], which the verb [q] of package [fmt] applies to a
    string, on texts of ASCII bytes: the text between double quotes,
    with a backslash before a double quote and before a backslash, the
    other bytes from the blank to the tilde as they are, the seven
    control bytes that have a name written as a backslash and their
    letter, and every other control byte as a backslash, [x] and two
    hexadecimal digits.  What is written for a byte above 127 depends
    on the tables of Unicode: [None] stands for a text with such a
    byte. *)
Definition quoteByte (c : ascii) : option string :=
  let n := nat_of_ascii c in
  if ((n =? 34) || (n =? 92))%nat then Some (escaped c)
  else if ((32 <=? n) && (n <? 127))%nat then Some (String c EmptyString)
  else if (n =? 7)%nat then Some (escaped "a")
  else if (n =? 8)%nat then Some (escaped "b")
  else if (n =? 12)%nat then Some (escaped "f")
  else if (n =? 10)%nat then Some (escaped "n")
  else if (n =? 13)%nat then Some (escaped "r")
  else if (n =? 9)%nat then Some (escaped "t")
  else if (n =? 11)%nat then Some (escaped "v")
  else if ((n <? 32) || (n =? 127))%nat
       then Some (String backslash
                    (String "x" (String (lowerhex (n / 16))
                                   (String (lowerhex (n mod 16))
                                           EmptyString))))
  else None.

Fixpoint quoteBody (s : string) : option string :=
  match s with
  | EmptyString => Some (String dquote EmptyString)
  | String c s' =>
      match quoteByte c, quoteBody s' with
      | Some q, Some rest => Some (q ++ rest)
      | _, _ => None
      end
  end.

Definition Quote (s : string) : option string :=
  match quoteBody s with
  | Some body => Some (String dquote body)
  | None => None
  end.

End strconv.

(** ** Line splitting *)

Module Lines.

(** Modelled from the spec: SplitLines is defined outside the files at
    hand; the specification fixes it as a deterministic split on line
    breaks, taken here as [strings.Split(text, "\n")].  The driver
    below takes the splitting rule as a parameter; this one is used
    where a concrete rule is needed. *)
Fixpoint SplitLines (s : string) : list string :=
  match s with
  | EmptyString => [EmptyString]
  | String c s' =>
      if Ascii.eqb c newline then EmptyString :: SplitLines s'
      else match SplitLines s' with
           | l :: ls => String c l :: ls
           | [] => [String c EmptyString]
           end
  end.

End Lines.

(** ** Package [regexp]: leftmost-first search with submatches

    Only the operators the program's six patterns use are kept.  The
    repetitions of these patterns all range over a single character
    class, which is what [Star] and [Plus] take.  The matcher is the
    textbook backtracking one written in continuation-passing style:
    alternatives are tried left to right, a greedy repetition tries the
    longest run first and a lazy one the shortest, which is the match
    Go's [regexp] reports. *)

Module regexp.

Inductive regex : Type :=
| Lit (s : string)
| Class (p : ascii -> bool)
| Star (greedy : bool) (p : ascii -> bool)
| Plus (greedy : bool) (p : ascii -> bool)
| Quest (r : regex)
| Alt (r1 r2 : regex)
| Cat (r1 r2 : regex)
| Group (n : nat) (r : regex).

(** Submatch positions: group number, start and end offset. *)
Definition caps : Type := list (nat * (nat * nat)).

Definition cont : Type := nat -> string -> caps -> option (nat * caps).

Fixpoint stripPrefix (l s : string) : option string :=
  match l with
  | EmptyString => Some s
  | String a l' =>
      match s with
      | String b s' => if Ascii.eqb a b then stripPrefix l' s' else None
      | EmptyString => None
      end
  end.

Fixpoint starGreedy (p : ascii -> bool) (k : cont)
         (pos : nat) (s : string) (c : caps) : option (nat * caps) :=
  match s with
  | String a s' =>
      if p a then
        match starGreedy p k (S pos) s' c with
        | Some r => Some r
        | None => k pos s c
        end
      else k pos s c
  | EmptyString => k pos s c
  end.

Fixpoint starLazy (p : ascii -> bool) (k : cont)
         (pos : nat) (s : string) (c : caps) : option (nat * caps) :=
  match k pos s c with
  | Some r => Some r
  | None =>
      match s with
      | String a s' => if p a then starLazy p k (S pos) s' c else None
      | EmptyString => None
      end
  end.

Definition star (greedy : bool) := if greedy then starGreedy else starLazy.

Fixpoint run (r : regex) (pos : nat) (s : string) (c : caps) (k : cont)
  : option (nat * caps) :=
  match r with
  | Lit l =>
      match stripPrefix l s with
      | Some s' => k (pos + String.length l)%nat s' c
      | None => None
      end
  | Class p =>
      match s with
      | String a s' => if p a then k (S pos) s' c else None
      | EmptyString => None
      end
  | Star g p => star g p k pos s c
  | Plus g p =>
      match s with
      | String a s' => if p a then star g p k (S pos) s' c else None
      | EmptyString => None
      end
  | Quest r1 =>
      match run r1 pos s c k with
      | Some res => Some res
      | None => k pos s c
      end
  | Alt r1 r2 =>
      match run r1 pos s c k with
      | Some res => Some res
      | None => run r2 pos s c k
      end
  | Cat r1 r2 => run r1 pos s c (fun pos' s' c' => run r2 pos' s' c' k)
  | Group n r1 =>
      run r1 pos s c (fun pos' s' c' => k pos' s' ((n, (pos, pos')) :: c'))
  end.

Definition accept : cont := fun pos _ c => Some (pos, c).

(** The leftmost start offset at which the pattern matches, with the
    end offset and the submatches of the preferred match there. *)
Fixpoint findFrom (r : regex) (pos : nat) (s : string)
  : option (nat * nat * caps) :=
  match run r pos s [] accept with
  | Some (e, c) => Some (pos, e, c)
  | None =>
      match s with
      | String _ s' => findFrom r (S pos) s'
      | EmptyString => None
      end
  end.

Fixpoint NumSubexp (r : regex) : nat :=
  match r with
  | Lit _ | Class _ | Star _ _ | Plus _ _ => 0
  | Quest r1 => NumSubexp r1
  | Alt r1 r2 | Cat r1 r2 => NumSubexp r1 + NumSubexp r2
  | Group _ r1 => S (NumSubexp r1)
  end.

Fixpoint lookup (n : nat) (c : caps) : option (nat * nat) :=
  match c with
  | [] => None
  | (m, span) :: c' => if Nat.eqb n m then Some span else lookup n c'
  end.

Definition span (s : string) (b e : nat) : string := substring b (e - b) s.

(** A group that took no part in the match reports the empty string. *)
Definition submatch (s : string) (c : caps) (n : nat) : string :=
  match lookup n c with
  | Some (b, e) => span s b e
  | None => EmptyString
  end.

(** [FindStringSubmatch]: [nil] when there is no match, otherwise the
    matched text followed by one entry per group. *)
Definition FindStringSubmatch (r : regex) (s : string) : list string :=
  match findFrom r 0 s with
  | Some (b, e, c) => span s b e :: map (submatch s c) (seq 1 (NumSubexp r))
  | None => []
  end.

(** [FindStringIndex]: the offsets of the match, [None] for [nil]. *)
Definition FindStringIndex (r : regex) (s : string) : option (Z * Z) :=
  match findFrom r 0 s with
  | Some (b, e, _) => Some (Z.of_nat b, Z.of_nat e)
  | None => None
  end.

Definition MatchString (r : regex) (s : string) : bool :=
  match findFrom r 0 s with
  | Some _ => true
  | None => false
  end.

End regexp.

(** ** The program: diagnostics *)

(** [type ErrorLevel string] with its three constants. *)
Definition ErrorLevel : Type := string.

Definition misunderstoodError : ErrorLevel := "misunderstood".
Definition parseErrorLevel : ErrorLevel := "parse".
Definition execErrorLevel : ErrorLevel := "exec".

Record templateError : Type := mkTemplateError {
  Line : Z;
  Char : Z;
  Description : string;
  Level : ErrorLevel
}.

(** Assignment through the pointer [tplErr] to the field [Char]. *)
Definition setChar (e : templateError) (c : Z) : templateError :=
  mkTemplateError (Line e) c (Description e) (Level e).

Definition maxFixes : Z := 10.

(** *** The patterns *)

Import regexp.

Definition anyChar (c : ascii) : bool := negb (Ascii.eqb c newline).

Definition isSpace (c : ascii) : bool :=
  Ascii.eqb c "009"%char || Ascii.eqb c newline || Ascii.eqb c "012"%char
  || Ascii.eqb c "013"%char || Ascii.eqb c " "%char.

Definition isQuote (c : ascii) : bool :=
  Ascii.eqb c squote || Ascii.eqb c dquote.

Declare Scope regex_scope.
Delimit Scope regex_scope with re.
Notation "a ## b" := (Cat a b) (at level 60, right associativity) : regex_scope.

(** Line 15: the text [template: ], group 1 a lazy run of any bytes
    but line breaks, a colon, optionally group 2 made of group 3 (one
    or more digits) and a colon, group 4 (one or more digits), a colon
    and a blank, group 5 a greedy run of any bytes but line breaks. *)
Definition templateErrorRegex : regex :=
  (Lit "template: " ## Group 1 (Star false anyChar) ## Lit ":"
   ## Quest (Group 2 (Group 3 (Plus true isDigit) ## Lit ":"))
   ## Group 4 (Plus true isDigit) ## Lit ": " ## Group 5 (Star true anyChar))%re.

(** Line 16: a single or double quote, group 1 a greedy non-empty run
    of any bytes but line breaks, a single or double quote. *)
Definition findTokenRegex : regex :=
  (Class isQuote ## Group 1 (Plus true anyChar) ## Class isQuote)%re.

(** Line 17: an opening angle bracket, group 1 made of a dot and a
    lazy non-empty run, a closing angle bracket. *)
Definition findExprRegex : regex :=
  (Lit "<" ## Group 1 (Lit "." ## Plus false anyChar) ## Lit ">")%re.

(** Line 18: the text [function ], a double quote, group 1 a greedy
    non-empty run, a double quote, the text [ not defined]. *)
Definition functionNotFoundRegex : regex :=
  (Lit "function " ## Class (Ascii.eqb dquote) ## Group 1 (Plus true anyChar)
   ## Class (Ascii.eqb dquote) ## Lit " not defined")%re.

(** Line 19: the literal text. *)
Definition missingValueForCommandRegex : regex :=
  Lit "missing value for command".

(** Line 20: two opening braces, group 1 with the alternatives group 2
    (an optional dash, then a lazy run of white space) and group 3 (a
    lazy run of white space, then an optional dash), two closing
    braces. *)
Definition firstEmptyCommandRegex : regex :=
  (Lit "{{"
   ## Group 1 (Alt (Group 2 (Quest (Lit "-") ## Star false isSpace))
                  (Group 3 (Star false isSpace ## Quest (Lit "-"))))
   ## Lit "}}")%re.

(** The part of the message pattern after the name and its colon, and
    the part of that after the optional line group. *)
Abbreviation tailPattern :=
  (Group 4 (Plus true isDigit) ## Lit ": " ## Group 5 (Star true anyChar))%re.

Abbreviation positionPattern :=
  (Quest (Group 2 (Group 3 (Plus true isDigit) ## Lit ":")) ## tailPattern)%re.

(** *** The extractor *)

Definition createTemplateError (err : string) (level : ErrorLevel)
  : templateError :=
  let matches := FindStringSubmatch templateErrorRegex err in
  if negb (Nat.eqb (List.length matches) 6) then
    mkTemplateError (-1) (-1) err misunderstoodError
  else
    let m (i : nat) := nth i matches EmptyString in
    let '(lineIndex, char) :=
      if negb (String.eqb (m 3%nat) EmptyString) then
        (3%nat, match strconv.Atoi (m 4%nat) with
                | Some c => c
                | None => -1
                end)
      else (4%nat, -1) in
    let line :=
      match strconv.Atoi (m lineIndex) with
      | Some l => l - 1
      | None => -1
      end in
    let description := m 5%nat in
    mkTemplateError line char description level.

(** ** The template engine

    Package [text/template] is outside the program, which only uses
    the operations below.  [Parse] yields the parsed
    template or the text of the error.  [Funcs] registers one stub
    under the given name and panics on a name the engine rejects
    ([None]); it returns its receiver, so the value threaded through
    the recursion stands for the one shared template object.
    [Execute] yields the output written to the buffer and the text of
    the error, if any. *)

Record Engine : Type := mkEngine {
  Template : Type;
  Data : Type;
  Parse : Template -> string -> Template + string;
  Funcs : Template -> string -> option Template;
  Execute : Template -> Data -> string * option string;
  Name : Template -> string
}.

Section Recovery.

Variable E : Engine.
Variable SplitLines : string -> list string.

(** [baseTpl.Funcs(template.FuncMap{token: ...})], which panics on a
    name the engine rejects. *)
Definition callFuncs (t : Template E) (name : string) : Res (Template E) :=
  match Funcs E t name with
  | Some t' => Ret t'
  | None => Panic BadFunctionName
  end.

(** Lines 75 to 87 of [parseInternal]: when the diagnostic has no
    character offset, look for a quoted token of the description on
    the offending line. *)
Definition locateChar (lines : list string) (tplErr : templateError)
  : Res templateError :=
  if Char tplErr =? -1 then
    match FindStringIndex findTokenRegex (Description tplErr) with
    | Some (lo, hi) =>
        token <- slice (Description tplErr) (lo + 1) (hi - 1) ;;
        line <- index lines (Line tplErr) ;;
        let lastChar := strings.LastIndex line token in
        let firstChar := strings.Index line token in
        if lastChar =? firstChar then Ret (setChar tplErr firstChar)
        else Ret tplErr
    | None => Ret tplErr
    end
  else Ret tplErr.

(** The body of [parseInternal]; [self] stands for the recursive call.

    The slice [tplErrs] holds exactly the diagnostic of this attempt
    when the healers run, and [tplErr] points at that element: the
    updates of [tplErr.Char] are therefore visible in the list that is
    returned, which the model builds from the updated record. *)
Definition parseInternalBody
  (self : string -> Template E -> Z -> Res (Template E * list templateError))
  (text : string) (baseTpl : Template E) (depth : Z)
  : Res (Template E * list templateError) :=
  let lines := SplitLines text in
  if depth >=? maxFixes then Ret (baseTpl, [])
  else
    match Parse E baseTpl text with
    | inl t => Ret (t, [])
    | inr err =>
      let tplErr := createTemplateError err parseErrorLevel in
      if negb (String.eqb (Level tplErr) misunderstoodError) then
        tplErr <- locateChar lines tplErr ;;
        let badFunctionMatch :=
          FindStringSubmatch functionNotFoundRegex (Description tplErr) in
        match badFunctionMatch with
        | _ :: _ =>
            let token := nth 1 badFunctionMatch EmptyString in
            tpl' <- callFuncs baseTpl token ;;
            ' (t, parseTplErrs) <- self text tpl' (depth + 1) ;;
            Ret (t, ([tplErr] ++ parseTplErrs)%list)
        | [] =>
            if MatchString missingValueForCommandRegex (Description tplErr)
            then
              match FindStringSubmatch firstEmptyCommandRegex text with
              | m0 :: _ =>
                  line <- index (SplitLines text) (Line tplErr) ;;
                  let tplErr :=
                    match FindStringIndex firstEmptyCommandRegex line with
                    | Some (lo, _) => setChar tplErr lo
                    | None => tplErr
                    end in
                  let replacement := fmt.SprintfPad (len m0) in
                  ' (t, parseTplErrs) <-
                    self (strings.Replace1 text m0 replacement)
                         baseTpl (depth + 1) ;;
                  Ret (t, ([tplErr] ++ parseTplErrs)%list)
              | [] => Ret (baseTpl, [tplErr])
              end
            else Ret (baseTpl, [tplErr])
        end
      else Ret (baseTpl, [tplErr])
    end.

Fixpoint parseInternalFuel (fuel : nat)
  : string -> Template E -> Z -> Res (Template E * list templateError) :=
  match fuel with
  | O => fun _ _ _ => OutOfFuel
  | S fuel' => parseInternalBody (parseInternalFuel fuel')
  end.

(** Every call either stops at [depth >= maxFixes] or recurses at
    [depth + 1]: this much fuel is never used up. *)
Definition parseInternal (text : string) (baseTpl : Template E) (depth : Z)
  : Res (Template E * list templateError) :=
  parseInternalFuel (S (Z.to_nat (maxFixes - depth))) text baseTpl depth.

Definition parse (text : string) (baseTpl : Template E)
  : Res (Template E * list templateError) :=
  parseInternal text baseTpl 0.

(** The text [exec] compares the message of a failed execution with:
    the words of the engine's message for a template without a body,
    with the name of the template written as it is between double
    quotes. *)
Definition emptyTemplateMessage (name : string) : string :=
  "template: " ++ name ++ ": " ++ String dquote name
  ++ String dquote " is an incomplete or empty template".

Record execResult : Type := mkExecResult {
  execErrs : list templateError;
  execBuf : string;
  execStdout : list string
}.

(** [exec]: the buffer grows by what [Execute] wrote; the third
    component is what [fmt.Println] printed. *)
Definition exec (t : Template E) (data : Data E) (buf : string) : execResult :=
  let '(out, err) := Execute E t data in
  let buf := buf ++ out in
  match err with
  | None => mkExecResult [] buf []
  | Some msg =>
      if String.eqb msg (emptyTemplateMessage (Name E t))
      then mkExecResult [] buf []
      else
        let tplErr := createTemplateError msg execErrorLevel in
        let tplErrs := [tplErr] in
        let matches := FindStringSubmatch findExprRegex (Description tplErr) in
        if Nat.eqb (List.length matches) 2
        then mkExecResult tplErrs buf [nth 1 matches EmptyString]
        else mkExecResult tplErrs buf []
  end.

End Recovery.

(** ** Engines for the worked examples

    A template of the example engines records its name, the stubs
    registered so far and the text it was parsed from, if any.  The
    answers of [Parse] and [Execute] are given by the two oracles. *)

Record mockTemplate : Type := mkMock {
  mockName : string;
  mockFuncs : list string;
  mockTree : option string
}.

Definition mockEngine
  (parseErr : list string -> string -> option string)
  (goodName : string -> bool)
  (execErr : mockTemplate -> option string) : Engine :=
  {| Template := mockTemplate;
     Data := unit;
     Parse := fun t text =>
       match parseErr (mockFuncs t) text with
       | Some msg => inr msg
       | None => inl (mkMock (mockName t) (mockFuncs t) (Some text))
       end;
     Funcs := fun t name =>
       if goodName name
       then Some (mkMock (mockName t) (name :: mockFuncs t) (mockTree t))
       else None;
     Execute := fun t _ => (EmptyString, execErr t);
     Name := mockName |}.

(** [textTemplate.New("input template")] *)
Definition inputTemplate : mockTemplate :=
  mkMock "input template" [] None.

Definition quoted (s : string) : string :=
  String dquote (s ++ String dquote EmptyString).

Fixpoint assoc (key : string) (tbl : list (string * string)) : option string :=
  match tbl with
  | [] => None
  | (k, v) :: tbl' => if String.eqb key k then Some v else assoc key tbl'
  end.

(** Parsing fails with the listed message on the listed texts and
    succeeds on every other text. *)
Definition scripted (script : list (string * string))
  : list string -> string -> option string :=
  fun _ text => assoc text script.

Definition memberb (x : string) (xs : list string) : bool :=
  existsb (String.eqb x) xs.

(** Parsing fails on the first of the [needed] functions that has no
    stub yet, with the engine's message for an undefined function. *)
Definition undefinedFunctions (needed : list string)
  : list string -> string -> option string :=
  fun stubs _ =>
    match filter (fun f => negb (memberb f stubs)) needed with
    | f :: _ =>
        Some ("template: input template:1: function " ++ quoted f
              ++ " not defined")
    | [] => None
    end.

Definition anyName (_ : string) : bool := true.
Definition noExecError (_ : mockTemplate) : option string := None.

(** ** Vocabulary of the statements *)

Fixpoint allb (p : ascii -> bool) (s : string) : bool :=
  match s with
  | EmptyString => true
  | String a s' => p a && allb p s'
  end.

(** A non-empty run of decimal digits, as [\d+] matches. *)
Definition digits (s : string) : Prop :=
  s <> EmptyString /\ allb isDigit s = true.

(** A text without line break, as [.*] matches. *)
Definition oneLine (s : string) : Prop := allb anyChar s = true.

Definition noColon (s : string) : Prop :=
  allb (fun c => negb (Ascii.eqb c ":"%char)) s = true.

Definition noQuote (s : string) : Prop :=
  allb (fun c => negb (isQuote c)) s = true.

(** The number a run of digits denotes. *)
Definition decimal (s : string) : Z :=
  match digitsFrom 0 s with
  | Some v => v
  | None => 0
  end.

(** [s] does not start with a byte of the class [p]. *)
Definition stopsAt (p : ascii -> bool) (s : string) : Prop :=
  match s with
  | String a _ => p a = false
  | EmptyString => True
  end.

(** [Derives r pos w new]: the pattern [r] matches the word [w] put at
    offset [pos], recording the submatches [new], latest first. *)
Inductive Derives : regex -> nat -> string -> caps -> Prop :=
| D_Lit l pos : Derives (Lit l) pos l []
| D_Class p a pos :
    p a = true -> Derives (Class p) pos (String a EmptyString) []
| D_Star g p w pos : allb p w = true -> Derives (Star g p) pos w []
| D_Plus g p w pos :
    w <> EmptyString -> allb p w = true -> Derives (Plus g p) pos w []
| D_QuestSkip r pos : Derives (Quest r) pos EmptyString []
| D_QuestTake r pos w new : Derives r pos w new -> Derives (Quest r) pos w new
| D_AltL r1 r2 pos w new : Derives r1 pos w new -> Derives (Alt r1 r2) pos w new
| D_AltR r1 r2 pos w new : Derives r2 pos w new -> Derives (Alt r1 r2) pos w new
| D_Cat r1 r2 pos w1 w2 new1 new2 :
    Derives r1 pos w1 new1 ->
    Derives r2 (pos + String.length w1)%nat w2 new2 ->
    Derives (Cat r1 r2) pos (w1 ++ w2) (new2 ++ new1)%list
| D_Group n r pos w new :
    Derives r pos w new ->
    Derives (Group n r) pos w ((n, (pos, pos + String.length w)%nat) :: new).

(** The two forms of message the extractor understands: line only,
    and line with character offset. *)
Definition grammarMessage (name line : string) (char : option string)
           (description : string) : string :=
  "template: " ++ name ++ ":" ++ line
  ++ match char with
     | Some c => ":" ++ c
     | None => EmptyString
     end
  ++ ": " ++ description.

(** A text matches the grammar when it holds a message of one of the
    two forms; like the pattern, the grammar is not anchored. *)
Definition matchesGrammar (s : string) : Prop :=
  exists pre name line char description post,
    s = pre ++ grammarMessage name line char description ++ post
    /\ oneLine name /\ digits line
    /\ (forall c, char = Some c -> digits c)
    /\ oneLine description.

(** What the extractor stores for a line field and for an optional
    character field. *)
Definition storedLine (line : string) : Z :=
  match strconv.Atoi line with
  | Some l => l - 1
  | None => -1
  end.

Definition storedChar (char : option string) : Z :=
  match char with
  | Some c => match strconv.Atoi c with
              | Some v => v
              | None => -1
              end
  | None => -1
  end.

(** The text holds a quoted span: a quote, a non-empty run without
    line break, a quote. *)
Definition hasQuotedSpan (s : string) : Prop :=
  exists pre q1 tok q2 post,
    s = pre ++ String q1 (tok ++ String q2 post)
    /\ isQuote q1 = true /\ isQuote q2 = true
    /\ tok <> EmptyString /\ oneLine tok.

(** [tok] occurs in [l] at offset [i]. *)
Definition occursAt (l tok : string) (i : Z) : Prop :=
  0 <= i <= len l /\ strings.HasPrefix (drop (Z.to_nat i) l) tok = true.

Definition occursOnceAt (l tok : string) (i : Z) : Prop :=
  occursAt l tok i /\ forall j, occursAt l tok j -> j = i.

Section StubChains.

Variable E : Engine.
Variable SplitLines : string -> list string.

(** [stubChain text n t tn ds]: starting from the template [t], the
    text fails to parse [n] times in a row, each time for an undefined
    function that one stub cures; [tn] is the template carrying the
    [n] stubs and [ds] are the diagnostics of the [n] failures. *)
Inductive stubChain (text : string)
  : nat -> Template E -> Template E -> list templateError -> Prop :=
| chain_nil t : stubChain text 0 t t []
| chain_cons n t t1 tn err d whole name ds :
    Parse E t text = inr err ->
    Level (createTemplateError err parseErrorLevel) <> misunderstoodError ->
    locateChar (SplitLines text) (createTemplateError err parseErrorLevel)
      = Ret d ->
    FindStringSubmatch functionNotFoundRegex (Description d) = [whole; name] ->
    Funcs E t name = Some t1 ->
    stubChain text n t1 tn ds ->
    stubChain text (S n) t tn (d :: ds).

End StubChains.

(** The lengths of the lines of a text, under the line splitting rule
    of the specification. *)
Definition lineLengths (s : string) : list nat :=
  map String.length (Lines.SplitLines s).

(** A run of digits that denotes a number in the range of [int]. *)
Definition representable (s : string) : Prop :=
  digits s /\ decimal s <= maxInt.

(** ** Worked examples *)

Definition nl : string := String newline EmptyString.

(** A text whose only action is never closed. *)
Definition unclosedText : string := "{{".

Definition unclosedMessage : string :=
  "template: input template:1: unclosed action".

Definition unclosedEngine : Engine :=
  mockEngine (scripted [(unclosedText, unclosedMessage)]) anyName noExecError.

(** A text calling ten functions, none of which is defined. *)
Definition tenFunctions : list string :=
  ["f0"; "f1"; "f2"; "f3"; "f4"; "f5"; "f6"; "f7"; "f8"; "f9"].

Definition tenText : string :=
  "{{f0}}{{f1}}{{f2}}{{f3}}{{f4}}{{f5}}{{f6}}{{f7}}{{f8}}{{f9}}".

Definition tenEngine : Engine :=
  mockEngine (undefinedFunctions tenFunctions) anyName noExecError.

(** The base template after the ten stubs went in; it has no tree. *)
Definition tenStubbed : mockTemplate :=
  mkMock "input template" (rev tenFunctions) None.

(** The same with the first function already defined by the caller:
    nine stubs are missing. *)
Definition nineText : string :=
  "{{f1}}{{f2}}{{f3}}{{f4}}{{f5}}{{f6}}{{f7}}{{f8}}{{f9}}".

Definition nineEngine : Engine :=
  mockEngine (undefinedFunctions (tl tenFunctions)) anyName noExecError.

Definition nineStubbed : mockTemplate :=
  mkMock "input template" (rev (tl tenFunctions)) None.

(** The diagnostic of an undefined function [foo], called on the
    first line. *)
Definition undefinedFoo : templateError :=
  mkTemplateError 0 (-1) ("function " ++ quoted "foo" ++ " not defined")
                  parseErrorLevel.

(** A description with two quoted spans, and the line it is about. *)
Definition twoSpans : string :=
  "expected " ++ quoted "name" ++ " before " ++ quoted "end".

Definition twoSpansLine : string := "{{name}} {{end}}".

Definition twoSpansError : templateError :=
  mkTemplateError 0 (-1) twoSpans parseErrorLevel.

(** An empty action spread over two lines, followed by a second empty
    action on the third line. *)
Definition brokenAction : string := "{{" ++ nl ++ "}}".

Definition brokenText : string := brokenAction ++ nl ++ "{{}}".

Definition brokenHealed : string := "     " ++ nl ++ "{{}}".

Definition missingValueMessage : string :=
  "template: input template:2: missing value for command".

Definition brokenEngine : Engine :=
  mockEngine (scripted [(brokenText, missingValueMessage);
                        (brokenHealed, missingValueMessage)])
             anyName noExecError.

(** A message whose line number lies outside the text. *)
Definition farLineMessage : string :=
  "template: input template:7: unexpected " ++ quoted "x".

Definition farLineEngine : Engine :=
  mockEngine (scripted [("x", farLineMessage)]) anyName noExecError.

(** An identifier that starts with the two bytes of the Arabic-Indic
    digit three: the engine's lexer takes it for a function name, and
    the engine's [Funcs] rejects it. *)
Definition oddName : string :=
  String "217"%char (String "163"%char "abc").

Definition oddText : string := "{{" ++ oddName ++ "}}".

(** The engine only registers names that start with a letter or an
    underscore; for the example it is enough to look at ASCII. *)
Definition isLetterStart (name : string) : bool :=
  match name with
  | String c _ =>
      let n := nat_of_ascii c in
      ((65 <=? n) && (n <=? 90) || (97 <=? n) && (n <=? 122)
       || (n =? 95))%nat
  | EmptyString => false
  end.

Definition oddEngine : Engine :=
  mockEngine (undefinedFunctions [oddName]) isLetterStart noExecError.

(** Execution failing with a message outside the grammar. *)
Definition boomEngine : Engine :=
  mockEngine (scripted []) anyName (fun _ => Some "boom").

(** Execution failing with a message of the grammar. *)
Definition nilFieldMessage : string :=
  "template: input template:3:5: executing " ++ quoted "input template"
  ++ " at <.Name>: nil data".

Definition nilFieldEngine : Engine :=
  mockEngine (scripted []) anyName (fun _ => Some nilFieldMessage).

(** The message of the engine for the execution of a template without
    a body: the engine writes the name of the template as it is after
    [template], and a second time with the verb [q], that is through
    [strconv.Quote]. *)
Definition engineEmptyMessage (name : string) : option string :=
  match strconv.Quote name with
  | Some q =>
      Some ("template: " ++ name ++ ": " ++ q
            ++ " is an incomplete or empty template")
  | None => None
  end.





(** ** The rest of the program: helpers of the page template *)

(** Go's [int] arithmetic wraps around in 64 bits. *)
Definition wrapInt (x : Z) : Z := (x + 2 ^ 63) mod 2 ^ 64 - 2 ^ 63.

(** [split] *)
Definition split (s : string) : list string := strings.Split s ": ".

Section IntRange.

(** The largest length [make([]int, n)] grants; a negative length or
    one above this limit panics. *)
Variable makeLimit : Z.

(** [intRange]: [None] stands for the panic of [make]. *)
Definition intRange (start end_ : Z) : option (list Z) :=
  let n := wrapInt (wrapInt (end_ - start) + 1) in
  if (n <? 0) || (makeLimit <? n) then None
  else Some (map (fun i => wrapInt (start + Z.of_nat i))
                 (seq 0 (Z.to_nat n))).

End IntRange.

(** ** The rest of the program: building the page *)

Record indexData : Type := mkIndexData {
  RawText : string;
  RawData : string;
  RawFunctions : string;
  TextLines : list string;
  Output : string;
  Errors : list templateError;
  LineNumSpacing : Z
}.

(** What [createData] leaves behind: the page, the field [a.tplErrs]
    and what was printed. *)
Record created : Type := mkCreated {
  page : indexData;
  appErrs : list templateError;
  printed : list string
}.

Section CreateData.

Variable E : Engine.
Variable SplitLines : string -> list string.

(** [CountDigits] is defined outside the files at hand, like
    [SplitLines]; [TrimSpace], [json.Unmarshal] and [template.New]
    belong to Go's libraries.  [Unmarshal] yields what it left in
    [data] and the text of its error, if any; [nilData] is the zero
    value of [data]. *)
Variable CountDigits : Z -> Z.
Variable TrimSpace : string -> string.
Variable New : string -> Template E.
Variable Unmarshal : string -> Data E * option string.
Variable nilData : Data E.

Definition badData (err : string) : templateError :=
  mkTemplateError (-1) (-1) ("failed to understand data: " ++ err)
                  misunderstoodError.

Definition badFunctionName (fn : string) : templateError :=
  mkTemplateError (-1) (-1)
    ("bad function name provided: " ++ String dquote fn
     ++ String dquote EmptyString)
    misunderstoodError.

(** One round of the loop over the function names: the panic of
    [Funcs] on a bad name is recovered and turned into a diagnostic;
    the template is then left as it was. *)
Definition registerFunction
  (st : Template E * list templateError) (fn : string)
  : Template E * list templateError :=
  let '(t, tplErrs) := st in
  let fn := TrimSpace fn in
  match Funcs E t fn with
  | Some t' => (t', tplErrs)
  | None => (t, (tplErrs ++ [badFunctionName fn])%list)
  end.

Definition functionNames (rawFns : string) : list string :=
  if String.eqb rawFns EmptyString then [] else strings.Split rawFns ",".

(** [createData]; [tplErrs] is the field [a.tplErrs] on entry. *)
Definition createData (tplErrs : list templateError)
           (text rawData rawFns : string) : Res created :=
  let '(data, tplErrs) :=
    if negb (String.eqb rawData EmptyString) then
      match Unmarshal rawData with
      | (d, Some err) => (d, (tplErrs ++ [badData err])%list)
      | (d, None) => (d, tplErrs)
      end
    else (nilData, tplErrs) in
  let t := New "input template" in
  let functions := functionNames rawFns in
  let '(t, tplErrs) := fold_left registerFunction functions (t, tplErrs) in
  ' (parsedT, parseTplErrs) <- parse E SplitLines text t ;;
  let tplErrs := (tplErrs ++ parseTplErrs)%list in
  let run := exec E parsedT data EmptyString in
  let tplErrs := (tplErrs ++ execErrs run)%list in
  let lines := SplitLines text in
  Ret (mkCreated
         (mkIndexData text rawData rawFns lines (execBuf run) tplErrs
                      (CountDigits (Z.of_nat (List.length lines))))
         tplErrs (execStdout run)).

End CreateData.

(** ** Vocabulary of the further statements *)

(** [strings.Join]: the parts with [sep] between them. *)
Fixpoint joinWith (sep : string) (parts : list string) : string :=
  match parts with
  | [] => EmptyString
  | [p] => p
  | p :: ps => p ++ sep ++ joinWith sep ps
  end.

(** [sub] occurs somewhere in [s]. *)
Definition contains (s sub : string) : Prop :=
  exists pre post, s = pre ++ sub ++ post.

(** What every diagnostic of the driver satisfies. *)
Definition wellFormed (d : templateError) : Prop :=
  -1 <= Line d /\ -1 <= Char d
  /\ (Level d = parseErrorLevel \/ Level d = misunderstoodError).

(** Only the last diagnostic of the list may be below the parse
    level. *)
Definition parseLevelButLast (errs : list templateError) : Prop :=
  forall init last,
    errs = (init ++ [last])%list ->
    Forall (fun d => Level d = parseErrorLevel) init.

(** What a result of the driver with at most [n] diagnostics looks
    like. *)
Definition boundedResult (A : Type) (n : nat)
           (r : Res (A * list templateError)) : Prop :=
  match r with
  | Ret (_, errs) =>
      (List.length errs <= n)%nat /\ Forall wellFormed errs
      /\ parseLevelButLast errs
  | _ => True
  end.

(** Parsing fails with a message outside the grammar. *)
Definition opaqueEngine : Engine :=
  mockEngine (scripted [("x", "boom")]) anyName noExecError.

(** The two diagnostics of [brokenText]. *)
Definition brokenErrors : list templateError :=
  [ mkTemplateError 1 (-1) "missing value for command" parseErrorLevel;
    mkTemplateError 1 0 "missing value for command" parseErrorLevel ].

Definition brokenParsed : mockTemplate :=
  mkMock "input template" [] (Some ("     " ++ nl ++ "    ")).

(** A parser that answers like [brokenEngine] on the texts of the
    length of [brokenText] and fails on all others. *)
Definition lengthBoundParse (t : mockTemplate) (text : string)
  : mockTemplate + string :=
  if Nat.eqb (String.length text) (String.length brokenText)
  then Parse brokenEngine t text
  else inr "template: input template:1: unexpected EOF".

(** An engine that only differs from [E] in how it parses. *)
Definition withParse (E : Engine)
           (P : Template E -> string -> Template E + string) : Engine :=
  @mkEngine (Template E) (Data E) P (Funcs E) (Execute E) (Name E).

(** Removing the blanks around a name, for the examples: the blanks
    at the front go, then those at the back. *)
Fixpoint trimFront (s : string) : string :=
  match s with
  | String " "%char s' => trimFront s'
  | _ => s
  end.

Fixpoint reverse (s : string) : string :=
  match s with
  | EmptyString => EmptyString
  | String a s' => reverse s' ++ String a EmptyString
  end.

Definition trimBlanks (s : string) : string :=
  reverse (trimFront (reverse (trimFront s))).

(** An engine that parses every text and only registers the names
    that start with a letter or an underscore. *)
Definition pickyEngine : Engine :=
  mockEngine (scripted []) isLetterStart noExecError.

(** What the loop over the function names of [createData] reports:
    one of the [names], trimmed, that [Funcs] rejected. *)
Definition rejectedName (E : Engine) (TrimSpace : string -> string)
           (names : list string) (d : templateError) : Prop :=
  exists fn t0,
    In fn names /\ Funcs E t0 (TrimSpace fn) = None
    /\ d = badFunctionName (TrimSpace fn).

(** The template of a page of the examples, before any stub. *)
Definition newMock (name : string) : mockTemplate := mkMock name [] None.

(** A text is a message of the grammar when it is one of the two
    forms from its first byte to its last. *)
Definition isGrammarMessage (s : string) : Prop :=
  exists name line char description,
    s = grammarMessage name line char description
    /\ oneLine name /\ digits line
    /\ (forall c, char = Some c -> digits c)
    /\ oneLine description.

(** A message of the grammar with a word before it. *)
Definition prefixedMessage : string := "oops template: X:12: some error".

(** A name that [strconv.Quote] only puts between double quotes:
    bytes from the blank to the tilde, without double quote and
    backslash. *)
Definition plainByte (c : ascii) : bool :=
  let n := nat_of_ascii c in
  ((32 <=? n) && (n <? 127) && negb (n =? 34) && negb (n =? 92))%nat.

Definition plainName (name : string) : Prop := allb plainByte name = true.

(** * Properties *)

(** ** Byte strings *)

Lemma append_nil_r (s : string) : s ++ EmptyString = s.
Proof. induction s; simpl; congruence. Qed.

Lemma append_assoc (a b c : string) : (a ++ b) ++ c = a ++ b ++ c.
Proof. induction a; simpl; congruence. Qed.

Lemma length_append (a b : string) :
  String.length (a ++ b) = (String.length a + String.length b)%nat.
Proof. induction a; simpl; congruence. Qed.

Lemma allb_append p (a b : string) :
  allb p (a ++ b) = allb p a && allb p b.
Proof.
  induction a as [|x a IH]; simpl; [reflexivity|].
  rewrite IH. apply andb_assoc.
Qed.

Lemma substring_append_skip (a b : string) (n : nat) :
  substring (String.length a) n (a ++ b) = substring 0 n b.
Proof. induction a; simpl; auto. Qed.

Lemma substring_prefix (a b : string) :
  substring 0 (String.length a) (a ++ b) = a.
Proof.
  induction a as [|x a IH]; simpl.
  - destruct b; reflexivity.
  - now rewrite IH.
Qed.

(** The bytes between two offsets of a text cut in three. *)
Lemma span_middle (a b c : string) :
  span (a ++ b ++ c) (String.length a) (String.length a + String.length b) = b.
Proof.
  unfold span.
  replace (String.length a + String.length b - String.length a)%nat
    with (String.length b) by lia.
  rewrite substring_append_skip. apply substring_prefix.
Qed.

(** ** Soundness of the matcher *)

Lemma stripPrefix_sound (l s s' : string) :
  stripPrefix l s = Some s' -> s = l ++ s'.
Proof.
  revert s. induction l as [|a l IH]; intros s H; simpl in *.
  - congruence.
  - destruct s as [|b s]; [discriminate|].
    destruct (Ascii.eqb_spec a b); [|discriminate].
    subst. f_equal. auto.
Qed.

Lemma stripPrefix_append (l s : string) : stripPrefix l (l ++ s) = Some s.
Proof.
  induction l as [|a l IH]; simpl; [reflexivity|].
  now rewrite Ascii.eqb_refl.
Qed.

Lemma starGreedy_sound p k s : forall pos c res,
  starGreedy p k pos s c = Some res ->
  exists w s', s = w ++ s' /\ allb p w = true
               /\ k (pos + String.length w)%nat s' c = Some res.
Proof.
  induction s as [|a s IH]; intros pos c res H; simpl in H.
  - exists EmptyString, EmptyString. simpl. rewrite Nat.add_0_r. auto.
  - destruct (p a) eqn:Hp.
    + destruct (starGreedy p k (S pos) s c) eqn:Hrec.
      * inversion H; subst. apply IH in Hrec.
        destruct Hrec as (w & s' & -> & Hw & Hk).
        exists (String a w), s'. simpl. rewrite Hp, Hw.
        replace (pos + S (String.length w))%nat
          with (S pos + String.length w)%nat by lia. auto.
      * exists EmptyString, (String a s). simpl. rewrite Nat.add_0_r. auto.
    + exists EmptyString, (String a s). simpl. rewrite Nat.add_0_r. auto.
Qed.

Lemma starLazy_sound p k s : forall pos c res,
  starLazy p k pos s c = Some res ->
  exists w s', s = w ++ s' /\ allb p w = true
               /\ k (pos + String.length w)%nat s' c = Some res.
Proof.
  induction s as [|a s IH]; intros pos c res H; simpl in H.
  - destruct (k pos EmptyString c) eqn:Hk; [|discriminate].
    exists EmptyString, EmptyString. simpl. rewrite Nat.add_0_r.
    split; [reflexivity|]. split; [reflexivity|]. congruence.
  - destruct (k pos (String a s) c) eqn:Hk.
    + exists EmptyString, (String a s). simpl. rewrite Nat.add_0_r.
      split; [reflexivity|]. split; [reflexivity|]. congruence.
    + destruct (p a) eqn:Hp; [|discriminate].
      apply IH in H. destruct H as (w & s' & -> & Hw & Hk').
      exists (String a w), s'. simpl. rewrite Hp, Hw.
      replace (pos + S (String.length w))%nat
        with (S pos + String.length w)%nat by lia. auto.
Qed.

Lemma star_sound g p k s pos c res :
  star g p k pos s c = Some res ->
  exists w s', s = w ++ s' /\ allb p w = true
               /\ k (pos + String.length w)%nat s' c = Some res.
Proof.
  destruct g; simpl; [apply starGreedy_sound | apply starLazy_sound].
Qed.

(** Whatever the matcher answers is a derivation of the pattern on a
    prefix of the text, with the continuation run on the rest. *)
Lemma run_sound r : forall pos s c k res,
  run r pos s c k = Some res ->
  exists w s' new,
    s = w ++ s' /\ Derives r pos w new
    /\ k (pos + String.length w)%nat s' (new ++ c)%list = Some res.
Proof.
  induction r as [l|p|g p|g p|r IH|r1 IH1 r2 IH2|r1 IH1 r2 IH2|n r IH];
    intros pos s c k res H; simpl in H.
  - destruct (stripPrefix l s) as [s'|] eqn:Hs; [|discriminate].
    apply stripPrefix_sound in Hs. subst.
    exists l, s', []. repeat split; auto. constructor.
  - destruct s as [|a s]; [discriminate|].
    destruct (p a) eqn:Hp; [|discriminate].
    exists (String a EmptyString), s, []. simpl.
    replace (pos + 1)%nat with (S pos) by lia.
    repeat split; auto. now constructor.
  - apply star_sound in H. destruct H as (w & s' & -> & Hw & Hk).
    exists w, s', []. repeat split; auto. now constructor.
  - destruct s as [|a s]; [discriminate|].
    destruct (p a) eqn:Hp; [|discriminate].
    apply star_sound in H. destruct H as (w & s' & -> & Hw & Hk).
    exists (String a w), s', []. simpl.
    replace (pos + S (String.length w))%nat
      with (S pos + String.length w)%nat by lia.
    repeat split; auto. constructor; [discriminate|]. simpl. now rewrite Hp.
  - destruct (run r pos s c k) eqn:Hr.
    + inversion H; subst. apply IH in Hr.
      destruct Hr as (w & s' & new & -> & Hd & Hk).
      exists w, s', new. repeat split; auto. now constructor.
    + exists EmptyString, s, []. simpl. rewrite Nat.add_0_r.
      repeat split; auto. constructor.
  - destruct (run r1 pos s c k) eqn:Hr.
    + inversion H; subst. apply IH1 in Hr.
      destruct Hr as (w & s' & new & -> & Hd & Hk).
      exists w, s', new. repeat split; auto. now apply D_AltL.
    + apply IH2 in H. destruct H as (w & s' & new & -> & Hd & Hk).
      exists w, s', new. repeat split; auto. now apply D_AltR.
  - apply IH1 in H. destruct H as (w1 & s1 & new1 & -> & Hd1 & H).
    apply IH2 in H. destruct H as (w2 & s2 & new2 & -> & Hd2 & H).
    exists (w1 ++ w2), s2, (new2 ++ new1)%list.
    rewrite append_assoc, length_append, Nat.add_assoc, <- app_assoc.
    repeat split; auto. now constructor.
  - apply IH in H. destruct H as (w & s' & new & -> & Hd & H).
    exists w, s', ((n, (pos, pos + String.length w)%nat) :: new).
    repeat split; auto. now constructor.
Qed.

(** A reported match is a derivation on a factor of the text. *)
Lemma findFrom_sound r s : forall pos b e c,
  findFrom r pos s = Some (b, e, c) ->
  exists pre w post,
    s = pre ++ w ++ post /\ Derives r b w c
    /\ b = (pos + String.length pre)%nat /\ e = (b + String.length w)%nat.
Proof.
  induction s as [|a s IH]; intros pos b e c H; simpl in H.
  - destruct (run r pos EmptyString [] accept) as [[e' c']|] eqn:Hr;
      [|discriminate].
    inversion H; subst. apply run_sound in Hr.
    destruct Hr as (w & s' & new & Hs & Hd & Hk).
    unfold accept in Hk. inversion Hk; subst.
    exists EmptyString, w, s'. simpl. rewrite Nat.add_0_r, app_nil_r.
    auto.
  - destruct (run r pos (String a s) [] accept) as [[e' c']|] eqn:Hr.
    + inversion H; subst. apply run_sound in Hr.
      destruct Hr as (w & s' & new & Hs & Hd & Hk).
      unfold accept in Hk. inversion Hk; subst.
      exists EmptyString, w, s'. simpl. rewrite Nat.add_0_r, app_nil_r.
      auto.
    + apply IH in H. destruct H as (pre & w & post & -> & Hd & -> & ->).
      exists (String a pre), w, post. simpl.
      replace (pos + S (String.length pre))%nat
        with (S pos + String.length pre)%nat by lia. auto.
Qed.

(** ** Reading a derivation back *)

Lemma Derives_Lit l pos w new :
  Derives (Lit l) pos w new -> w = l /\ new = [].
Proof. inversion 1; auto. Qed.

Lemma Derives_Class p pos w new :
  Derives (Class p) pos w new ->
  exists a, w = String a EmptyString /\ p a = true /\ new = [].
Proof. inversion 1; subst; eauto. Qed.

Lemma Derives_Star g p pos w new :
  Derives (Star g p) pos w new -> allb p w = true /\ new = [].
Proof. inversion 1; auto. Qed.

Lemma Derives_Plus g p pos w new :
  Derives (Plus g p) pos w new ->
  w <> EmptyString /\ allb p w = true /\ new = [].
Proof. inversion 1; auto. Qed.

Lemma Derives_Quest r pos w new :
  Derives (Quest r) pos w new ->
  (w = EmptyString /\ new = []) \/ Derives r pos w new.
Proof. inversion 1; auto. Qed.

Lemma Derives_Alt r1 r2 pos w new :
  Derives (Alt r1 r2) pos w new ->
  Derives r1 pos w new \/ Derives r2 pos w new.
Proof. inversion 1; auto. Qed.

Lemma Derives_Cat r1 r2 pos w new :
  Derives (Cat r1 r2) pos w new ->
  exists w1 w2 new1 new2,
    w = w1 ++ w2 /\ new = (new2 ++ new1)%list
    /\ Derives r1 pos w1 new1
    /\ Derives r2 (pos + String.length w1)%nat w2 new2.
Proof. inversion 1; subst. do 4 eexists; eauto. Qed.

Lemma Derives_Group n r pos w new :
  Derives (Group n r) pos w new ->
  exists new1,
    new = (n, (pos, pos + String.length w)%nat) :: new1
    /\ Derives r pos w new1.
Proof. inversion 1; subst; eauto. Qed.

(** ** Submatches of the message pattern *)

Lemma span_cut (s a b c : string) (i j : nat) :
  s = a ++ b ++ c -> i = String.length a -> j = (i + String.length b)%nat ->
  span s i j = b.
Proof. intros -> -> ->. apply span_middle. Qed.

Ltac norm_append :=
  rewrite ?append_assoc, ?append_nil_r; simpl;
  rewrite ?append_assoc, ?append_nil_r.
Ltac norm_length := rewrite ?length_append; simpl; lia.
Ltac cut_span x z :=
  apply (@span_cut _ x _ z);
  [ norm_append; reflexivity | norm_length | norm_length ].

(** The five groups of a match of the message pattern are the pieces
    of a message of the grammar. *)
Lemma templateErrorRegex_found err b e c :
  findFrom templateErrorRegex 0 err = Some (b, e, c) ->
  exists pre name line char description post,
    err = pre ++ grammarMessage name line char description ++ post
    /\ oneLine name /\ digits line
    /\ (forall x, char = Some x -> digits x)
    /\ oneLine description
    /\ map (submatch err c) (seq 1 5)
       = [ name;
           match char with Some _ => line ++ ":" | None => EmptyString end;
           match char with Some _ => line | None => EmptyString end;
           match char with Some x => x | None => line end;
           description ].
Proof.
  intros H. apply findFrom_sound in H.
  destruct H as (pre & w & post & -> & Hd & -> & _). simpl in Hd.
  unfold templateErrorRegex in Hd.
  apply Derives_Cat in Hd as (l1 & r1 & c1 & d1 & -> & -> & H1 & Hd).
  apply Derives_Lit in H1 as [-> ->].
  apply Derives_Cat in Hd as (name & r2 & c2 & d2 & -> & -> & H1 & Hd).
  apply Derives_Group in H1 as (c2' & -> & H1).
  apply Derives_Star in H1 as [Hname ->].
  apply Derives_Cat in Hd as (l3 & r3 & c3 & d3 & -> & -> & H1 & Hd).
  apply Derives_Lit in H1 as [-> ->].
  apply Derives_Cat in Hd as (opt & r4 & copt & d4 & -> & -> & Hopt & Hd).
  apply Derives_Cat in Hd as (num & r5 & c5 & d5 & -> & -> & H1 & Hd).
  apply Derives_Group in H1 as (c5' & -> & H1).
  apply Derives_Plus in H1 as (Hnum0 & Hnum & ->).
  apply Derives_Cat in Hd as (l6 & desc & c6 & d6 & -> & -> & H1 & Hd).
  apply Derives_Lit in H1 as [-> ->].
  apply Derives_Group in Hd as (c7 & -> & Hd).
  apply Derives_Star in Hd as [Hdesc ->].
  apply Derives_Quest in Hopt as [[-> ->] | Hopt].
  - (* line only *)
    exists pre, name, num, None, desc, post.
    unfold grammarMessage, digits, oneLine.
    repeat split; auto; try discriminate; try (now rewrite !append_assoc).
    cbn [map seq submatch lookup Nat.eqb app]. repeat f_equal.
    + cut_span (pre ++ "template: ") (":" ++ num ++ ": " ++ desc ++ post).
    + cut_span (pre ++ "template: " ++ name ++ ":") (": " ++ desc ++ post).
    + cut_span (pre ++ "template: " ++ name ++ ":" ++ num ++ ": ") post.
  - (* line and character *)
    apply Derives_Group in Hopt as (c8 & -> & Hopt).
    apply Derives_Cat in Hopt as (line & l9 & c9 & d9 & -> & -> & H1 & H2).
    apply Derives_Lit in H2 as [-> ->].
    apply Derives_Group in H1 as (c9' & -> & H1).
    apply Derives_Plus in H1 as (Hline0 & Hline & ->).
    exists pre, name, line, (Some num), desc, post.
    unfold grammarMessage, digits, oneLine.
    repeat split; auto; try congruence; try (now rewrite !append_assoc).
    cbn [map seq submatch lookup Nat.eqb app]. repeat f_equal.
    + cut_span (pre ++ "template: ")
               (":" ++ line ++ ":" ++ num ++ ": " ++ desc ++ post).
    + cut_span (pre ++ "template: " ++ name ++ ":")
               (num ++ ": " ++ desc ++ post).
    + cut_span (pre ++ "template: " ++ name ++ ":")
               (":" ++ num ++ ": " ++ desc ++ post).
    + cut_span (pre ++ "template: " ++ name ++ ":" ++ line ++ ":")
               (": " ++ desc ++ post).
    + cut_span
        (pre ++ "template: " ++ name ++ ":" ++ line ++ ":" ++ num ++ ": ")
        post.
Qed.

(** ** Numeric conversion *)

Lemma isDigit_digitVal (a : ascii) : isDigit a = true -> 0 <= digitVal a <= 9.
Proof.
  unfold isDigit, digitVal. intros H.
  apply andb_prop in H as [H1 H2].
  apply Nat.leb_le in H1. apply Nat.leb_le in H2. lia.
Qed.

Lemma digitsFrom_lower (s : string) : forall acc,
  allb isDigit s = true -> 0 <= acc ->
  exists v, digitsFrom acc s = Some v /\ acc <= v.
Proof.
  induction s as [|a s IH]; intros acc Hs Hacc; cbn [digitsFrom allb] in *.
  - exists acc. split; [reflexivity | lia].
  - apply andb_prop in Hs as [Ha Hs]. rewrite Ha.
    pose proof (isDigit_digitVal _ Ha) as Hv.
    destruct (IH (10 * acc + digitVal a) Hs ltac:(lia)) as (v & -> & Hle).
    exists v. split; [reflexivity | lia].
Qed.

Lemma decimal_nonneg (s : string) : allb isDigit s = true -> 0 <= decimal s.
Proof.
  intros Hs. unfold decimal.
  destruct (digitsFrom_lower s Hs (Z.le_refl 0)) as (v & -> & Hv). exact Hv.
Qed.

(** On a run of digits [Atoi] fails only by overflow. *)
Lemma Atoi_digits (s : string) :
  digits s ->
  strconv.Atoi s = if decimal s <=? maxInt then Some (decimal s) else None.
Proof.
  intros [Hne Hs]. pose proof (decimal_nonneg s Hs) as Hpos.
  unfold decimal in *.
  destruct (digitsFrom_lower s Hs (Z.le_refl 0)) as (v & Hv & _).
  rewrite Hv in *.
  destruct s as [|a s]; [congruence|].
  assert (Ha : isDigit a = true) by (simpl in Hs; now apply andb_prop in Hs).
  assert (Hgen : strconv.Atoi (String a s)
                 = if (minInt <=? v) && (v <=? maxInt) then Some v else None).
  { unfold strconv.Atoi.
    destruct a as [[] [] [] [] [] [] [] []]; try discriminate Ha;
      rewrite Hv; reflexivity. }
  rewrite Hgen.
  assert ((minInt <=? v) = true) as ->
      by (apply Z.leb_le; unfold minInt; lia).
  reflexivity.
Qed.

Lemma storedLine_digits (line : string) :
  digits line ->
  storedLine line
  = if decimal line <=? maxInt then decimal line - 1 else -1.
Proof.
  intros H. unfold storedLine. rewrite (Atoi_digits H).
  now destruct (decimal line <=? maxInt).
Qed.

Lemma storedChar_digits (c : string) :
  digits c ->
  storedChar (Some c) = if decimal c <=? maxInt then decimal c else -1.
Proof.
  intros H. unfold storedChar. rewrite (Atoi_digits H).
  now destruct (decimal c <=? maxInt).
Qed.

Lemma storedLine_lower (line : string) : digits line -> -1 <= storedLine line.
Proof.
  intros H. rewrite (storedLine_digits H).
  pose proof (decimal_nonneg line (proj2 H)).
  destruct (decimal line <=? maxInt); lia.
Qed.

Lemma storedChar_lower (char : option string) :
  (forall c, char = Some c -> digits c) -> -1 <= storedChar char.
Proof.
  intros H. destruct char as [c|]; [|simpl; lia].
  rewrite (storedChar_digits (H c eq_refl)).
  pose proof (decimal_nonneg c (proj2 (H c eq_refl))).
  destruct (decimal c <=? maxInt); lia.
Qed.

(** ** The extractor *)

Lemma createTemplateError_unmatched err level :
  findFrom templateErrorRegex 0 err = None ->
  createTemplateError err level
  = mkTemplateError (-1) (-1) err misunderstoodError.
Proof.
  intros H. unfold createTemplateError, FindStringSubmatch. now rewrite H.
Qed.

(** On a match the diagnostic is read off a message of the grammar
    held by the text. *)
Lemma createTemplateError_matched err level b e c :
  findFrom templateErrorRegex 0 err = Some (b, e, c) ->
  exists pre name line char description post,
    err = pre ++ grammarMessage name line char description ++ post
    /\ oneLine name /\ digits line
    /\ (forall x, char = Some x -> digits x)
    /\ oneLine description
    /\ createTemplateError err level
       = mkTemplateError (storedLine line) (storedChar char) description level.
Proof.
  intros H. pose proof (templateErrorRegex_found _ H) as Hf.
  destruct Hf as (pre & name & line & char & desc & post
                  & Herr & Hname & Hline & Hchar & Hdesc & Hsub).
  exists pre, name, line, char, desc, post.
  repeat (split; [assumption|]).
  unfold createTemplateError, FindStringSubmatch. rewrite H.
  change (NumSubexp templateErrorRegex) with 5%nat. rewrite Hsub.
  cbn [List.length Nat.eqb negb nth].
  destruct char as [x|].
  - destruct line as [|a line]; [now destruct Hline|]. reflexivity.
  - reflexivity.
Qed.

Lemma createTemplateError_cases err level :
  createTemplateError err level
  = mkTemplateError (-1) (-1) err misunderstoodError
  \/ exists pre name line char description post,
       err = pre ++ grammarMessage name line char description ++ post
       /\ oneLine name /\ digits line
       /\ (forall x, char = Some x -> digits x)
       /\ oneLine description
       /\ createTemplateError err level
          = mkTemplateError (storedLine line) (storedChar char)
                            description level.
Proof.
  destruct (findFrom templateErrorRegex 0 err) as [[[b e] c]|] eqn:H.
  - right. eapply createTemplateError_matched; eauto.
  - left. now apply createTemplateError_unmatched.
Qed.

Lemma createTemplateError_no_grammar err level :
  ~ matchesGrammar err ->
  createTemplateError err level
  = mkTemplateError (-1) (-1) err misunderstoodError.
Proof.
  intros Hno. destruct (createTemplateError_cases err level) as [H|H]; auto.
  destruct H as (pre & name & line & char & desc & post
                 & Herr & Hname & Hline & Hchar & Hdesc & _).
  exfalso. apply Hno. exists pre, name, line, char, desc, post. auto.
Qed.

(** ** The driver: unfolding and termination *)

Section DriverFacts.

Variable E : Engine.
Variable SplitLines : string -> list string.

Local Abbreviation body := (parseInternalBody E SplitLines).
Local Abbreviation driver := (parseInternal E SplitLines).

Lemma parseInternalBody_bound self text t depth :
  maxFixes <= depth -> body self text t depth = Ret (t, []).
Proof.
  intros H. unfold parseInternalBody.
  destruct (Z.geb_spec depth maxFixes); [reflexivity | lia].
Qed.

(** The body only calls [self] one level deeper. *)
Lemma parseInternalBody_ext self1 self2 text t depth :
  (forall text' t', self1 text' t' (depth + 1) = self2 text' t' (depth + 1)) ->
  body self1 text t depth = body self2 text t depth.
Proof.
  intros H. unfold parseInternalBody.
  destruct (depth >=? maxFixes); [reflexivity|].
  destruct (Parse E t text) as [p|err]; [reflexivity|].
  destruct (negb _); [|reflexivity].
  destruct (locateChar _ _) as [d| |]; simpl; try reflexivity.
  destruct (FindStringSubmatch functionNotFoundRegex _).
  - destruct (MatchString _ _); [|reflexivity].
    destruct (FindStringSubmatch firstEmptyCommandRegex text);
      [reflexivity|].
    destruct (index _ _); simpl; try reflexivity.
    now rewrite H.
  - destruct (callFuncs _ _ _); simpl; try reflexivity.
    now rewrite H.
Qed.

Lemma parseInternalFuel_agree : forall fuel1 fuel2 text t depth,
  (Z.to_nat (maxFixes - depth) < fuel1)%nat ->
  (Z.to_nat (maxFixes - depth) < fuel2)%nat ->
  parseInternalFuel E SplitLines fuel1 text t depth
  = parseInternalFuel E SplitLines fuel2 text t depth.
Proof.
  induction fuel1 as [|f1 IH]; intros fuel2 text t depth H1 H2; [lia|].
  destruct fuel2 as [|f2]; [lia|]. cbn [parseInternalFuel].
  destruct (Z_le_gt_dec maxFixes depth) as [Hd|Hd].
  - now rewrite !parseInternalBody_bound.
  - apply parseInternalBody_ext. intros text' t'. apply IH; lia.
Qed.

(** The defining equation of [parseInternal]. *)
Lemma parseInternal_unfold text t depth :
  driver text t depth = body driver text t depth.
Proof.
  unfold parseInternal at 1. cbn [parseInternalFuel].
  destruct (Z_le_gt_dec maxFixes depth) as [Hd|Hd].
  - now rewrite !parseInternalBody_bound.
  - apply parseInternalBody_ext. intros text' t'.
    unfold parseInternal. apply parseInternalFuel_agree; lia.
Qed.

Lemma parseInternal_bound text t depth :
  maxFixes <= depth -> driver text t depth = Ret (t, []).
Proof.
  intros H. rewrite parseInternal_unfold. now apply parseInternalBody_bound.
Qed.

Lemma locateChar_fuel lines d : locateChar lines d <> OutOfFuel.
Proof.
  unfold locateChar.
  destruct (Char d =? -1); [|discriminate].
  destruct (FindStringIndex _ _) as [[lo hi]|]; [|discriminate].
  unfold slice, index.
  destruct (_ && _); simpl; [|discriminate].
  destruct (_ <? 0); simpl; [discriminate|].
  destruct (nth_error _ _); simpl; [|discriminate].
  destruct (_ =? _); discriminate.
Qed.

Lemma parseInternalBody_fuel self text t depth :
  (forall text' t', self text' t' (depth + 1) <> OutOfFuel) ->
  body self text t depth <> OutOfFuel.
Proof.
  intros H. unfold parseInternalBody.
  destruct (depth >=? maxFixes); [discriminate|].
  destruct (Parse E t text) as [p|err]; [discriminate|].
  destruct (negb _); [|discriminate].
  pose proof (locateChar_fuel (SplitLines text)
                (createTemplateError err parseErrorLevel)) as Hl.
  destruct (locateChar _ _) as [d| |]; simpl; try discriminate; try congruence.
  destruct (FindStringSubmatch functionNotFoundRegex _).
  - destruct (MatchString _ _); [|discriminate].
    destruct (FindStringSubmatch firstEmptyCommandRegex text);
      [discriminate|].
    unfold index.
    destruct (_ <? 0); simpl; [discriminate|].
    destruct (nth_error _ _); simpl; [|discriminate].
    specialize (H (strings.Replace1 text s (fmt.SprintfPad (len s))) t).
    destruct (self _ _ _) as [[t' ds]| |]; simpl; try discriminate; congruence.
  - unfold callFuncs. destruct (Funcs E t _); simpl; [|discriminate].
    specialize (H text t0).
    destruct (self _ _ _) as [[t' ds]| |]; simpl; try discriminate; congruence.
Qed.

(** The fuel given to [parseInternal] always suffices. *)
Lemma parseInternal_fuel : forall n text t depth,
  Z.to_nat (maxFixes - depth) = n -> driver text t depth <> OutOfFuel.
Proof.
  induction n as [|n IH]; intros text t depth Hn.
  - rewrite parseInternal_bound by lia. discriminate.
  - rewrite parseInternal_unfold. apply parseInternalBody_fuel.
    intros text' t'. apply IH. lia.
Qed.

Lemma parseInternal_total text t depth : driver text t depth <> OutOfFuel.
Proof. now apply (@parseInternal_fuel (Z.to_nat (maxFixes - depth))). Qed.

End DriverFacts.

(** ** The driver: diagnostics and stub chains *)

Lemma createTemplateError_level err level :
  Level (createTemplateError err level) = misunderstoodError
  \/ Level (createTemplateError err level) = level.
Proof.
  destruct (createTemplateError_cases err level) as [-> | H]; [now left|].
  destruct H as (pre & name & line & char & desc & post & _ & _ & _ & _ & _ & ->).
  now right.
Qed.

(** The locator only ever touches the character offset. *)
Lemma locateChar_fields lines d d' :
  locateChar lines d = Ret d' ->
  Line d' = Line d /\ Description d' = Description d /\ Level d' = Level d.
Proof.
  unfold locateChar.
  destruct (Char d =? -1); [|now inversion 1].
  destruct (FindStringIndex _ _) as [[lo hi]|]; [|now inversion 1].
  destruct (slice _ _ _); simpl; try discriminate.
  destruct (index _ _); simpl; try discriminate.
  destruct (_ =? _); inversion 1; auto.
Qed.

Section ChainFacts.

Variable E : Engine.
Variable SplitLines : string -> list string.

Local Abbreviation driver := (parseInternal E SplitLines).

(** Below the bound the diagnostic of a failed parse heads the list. *)
Lemma parseInternal_head text t depth err t' errs :
  depth < maxFixes ->
  Parse E t text = inr err ->
  driver text t depth = Ret (t', errs) ->
  exists d rest,
    errs = d :: rest
    /\ Line d = Line (createTemplateError err parseErrorLevel)
    /\ Description d = Description (createTemplateError err parseErrorLevel)
    /\ Level d = Level (createTemplateError err parseErrorLevel).
Proof.
  intros Hd Hp. rewrite parseInternal_unfold. unfold parseInternalBody.
  destruct (Z.geb_spec depth maxFixes); [lia|]. rewrite Hp.
  set (d0 := createTemplateError err parseErrorLevel).
  destruct (negb _).
  2:{ inversion 1; subst. exists d0, []. auto. }
  destruct (locateChar _ d0) as [d| |] eqn:Hl; simpl; try discriminate.
  apply locateChar_fields in Hl.
  destruct (FindStringSubmatch functionNotFoundRegex _).
  - destruct (MatchString _ _).
    2:{ inversion 1; subst. exists d, []. auto. }
    destruct (FindStringSubmatch firstEmptyCommandRegex text).
    { inversion 1; subst. exists d, []. auto. }
    destruct (index _ _); simpl; try discriminate.
    destruct (driver _ _ _) as [[t1 ds]| |]; simpl; try discriminate.
    inversion 1; subst.
    destruct (FindStringIndex _ _) as [[lo hi]|]; eexists _, ds; split;
      try reflexivity; simpl; auto.
  - destruct (callFuncs _ _ _); simpl; try discriminate.
    destruct (driver _ _ _) as [[t1 ds]| |]; simpl; try discriminate.
    inversion 1; subst. exists d, ds. auto.
Qed.

Lemma stubChain_length text n t tn ds :
  stubChain E SplitLines text n t tn ds -> List.length ds = n.
Proof. induction 1; simpl; congruence. Qed.

Lemma stubChain_levels text n t tn ds :
  stubChain E SplitLines text n t tn ds ->
  Forall (fun d => Level d = parseErrorLevel) ds.
Proof.
  induction 1 as [|n t t1 tn err d whole name ds Hp Hlvl Hloc Hm Hf Hc IH];
    constructor; auto.
  apply locateChar_fields in Hloc as (_ & _ & ->).
  destruct (createTemplateError_level err parseErrorLevel); congruence.
Qed.

(** Running the driver along a chain of stub heals: the chain is
    followed while the depth stays below the bound; what happens at
    its end depends on the depth reached there. *)
Lemma stubChain_run text n t tn ds :
  stubChain E SplitLines text n t tn ds ->
  forall depth,
    (depth + Z.of_nat n < maxFixes ->
     forall p, Parse E tn text = inl p -> driver text t depth = Ret (p, ds))
    /\ (depth + Z.of_nat n = maxFixes -> driver text t depth = Ret (tn, ds)).
Proof.
  induction 1 as [|n t t1 tn err d whole name ds Hp Hlvl Hloc Hm Hf Hc IH];
    intros depth.
  - split.
    + intros Hd p Hp. rewrite parseInternal_unfold. unfold parseInternalBody.
      destruct (Z.geb_spec depth maxFixes); [lia|]. now rewrite Hp.
    + intros Hd. apply parseInternal_bound. lia.
  - assert (Hstep : depth < maxFixes ->
                    driver text t depth
                    = ' (t', errs) <- driver text t1 (depth + 1) ;;
                      Ret (t', d :: errs)).
    { intros Hd. rewrite parseInternal_unfold at 1. unfold parseInternalBody.
      destruct (Z.geb_spec depth maxFixes); [lia|]. rewrite Hp.
      apply String.eqb_neq in Hlvl. rewrite Hlvl. cbn [negb].
      rewrite Hloc. cbn [bind]. rewrite Hm. cbn [nth].
      unfold callFuncs. rewrite Hf. reflexivity. }
    destruct (IH (depth + 1)) as [IH1 IH2].
    split.
    + intros Hd p Hparse. rewrite Hstep by lia.
      rewrite (IH1 ltac:(lia) p Hparse). reflexivity.
    + intros Hd. rewrite Hstep by lia.
      rewrite (IH2 ltac:(lia)). reflexivity.
Qed.

End ChainFacts.

(** ** The execution translator *)

Section ExecFacts.

Variable E : Engine.

Lemma exec_success t data buf out :
  Execute E t data = (out, None) ->
  exec E t data buf = mkExecResult [] (buf ++ out) [].
Proof. intros H. unfold exec. now rewrite H. Qed.

Lemma exec_suppressed t data buf out :
  Execute E t data = (out, Some (emptyTemplateMessage (Name E t))) ->
  exec E t data buf = mkExecResult [] (buf ++ out) [].
Proof. intros H. unfold exec. rewrite H. now rewrite String.eqb_refl. Qed.

Lemma exec_failure t data buf out msg :
  Execute E t data = (out, Some msg) ->
  msg <> emptyTemplateMessage (Name E t) ->
  execErrs (exec E t data buf) = [createTemplateError msg execErrorLevel]
  /\ execBuf (exec E t data buf) = buf ++ out.
Proof.
  intros H Hne. unfold exec. rewrite H.
  apply String.eqb_neq in Hne. rewrite Hne.
  destruct (Nat.eqb _ 2); auto.
Qed.

End ExecFacts.

(** ** Which match the matcher prefers *)

(** A lazy run skips the bytes at which the continuation fails. *)
Lemma starLazy_skip p k c (w : string) : forall pos rest,
  allb p w = true ->
  (forall w1 a w2, w = w1 ++ String a w2 ->
     k (pos + String.length w1)%nat (String a w2 ++ rest) c = None) ->
  starLazy p k pos (w ++ rest) c
  = starLazy p k (pos + String.length w)%nat rest c.
Proof.
  induction w as [|a w IH]; intros pos rest Hw Hk.
  - simpl. now rewrite Nat.add_0_r.
  - simpl in Hw. apply andb_prop in Hw as [Ha Hw].
    cbn [append starLazy].
    pose proof (Hk EmptyString a w eq_refl) as H0.
    simpl in H0. rewrite Nat.add_0_r in H0. rewrite H0, Ha.
    rewrite IH; auto.
    + f_equal. simpl. lia.
    + intros w1 b w2 ->.
      specialize (Hk (String a w1) b w2 eq_refl). simpl in Hk.
      now replace (S pos + String.length w1)%nat
        with (pos + S (String.length w1))%nat by lia.
Qed.

(** A lazy run stops as soon as the continuation succeeds. *)
Lemma starLazy_stop p k pos s c res :
  k pos s c = Some res -> starLazy p k pos s c = Some res.
Proof. intros H. destruct s; simpl; now rewrite H. Qed.

(** A greedy run takes the whole run when the continuation succeeds
    behind it. *)
Lemma starGreedy_take p k c res (w : string) : forall pos rest,
  allb p w = true -> stopsAt p rest ->
  k (pos + String.length w)%nat rest c = Some res ->
  starGreedy p k pos (w ++ rest) c = Some res.
Proof.
  induction w as [|a w IH]; intros pos rest Hw Hrest Hk.
  - simpl in *. rewrite Nat.add_0_r in Hk.
    destruct rest as [|b rest]; simpl; auto.
    simpl in Hrest. now rewrite Hrest.
  - simpl in Hw. apply andb_prop in Hw as [Ha Hw].
    cbn [append starGreedy]. rewrite Ha.
    rewrite (IH (S pos) rest); auto.
    now replace (S pos + String.length w)%nat
      with (pos + String.length (String a w))%nat by (simpl; lia).
Qed.

(** A greedy run fails when the continuation fails behind every
    prefix of the run. *)
Lemma starGreedy_none p k c (w : string) : forall pos rest,
  allb p w = true -> stopsAt p rest ->
  (forall w1 w2, w = w1 ++ w2 ->
     k (pos + String.length w1)%nat (w2 ++ rest) c = None) ->
  starGreedy p k pos (w ++ rest) c = None.
Proof.
  induction w as [|a w IH]; intros pos rest Hw Hrest Hk.
  - specialize (Hk EmptyString EmptyString eq_refl).
    simpl in *. rewrite Nat.add_0_r in Hk.
    destruct rest as [|b rest]; simpl; auto.
    simpl in Hrest. now rewrite Hrest.
  - simpl in Hw. apply andb_prop in Hw as [Ha Hw].
    cbn [append starGreedy]. rewrite Ha.
    rewrite (IH (S pos) rest); auto.
    + specialize (Hk EmptyString (String a w) eq_refl).
      simpl in Hk. now rewrite Nat.add_0_r in Hk.
    + intros w1 w2 ->.
      specialize (Hk (String a w1) w2 eq_refl). simpl in Hk.
      now replace (S pos + String.length w1)%nat
        with (pos + S (String.length w1))%nat by lia.
Qed.

(** A greedy run stops at the last place of the run where the
    continuation succeeds. *)
Lemma starGreedy_last p k c res (w1 w2 : string) : forall pos rest,
  allb p (w1 ++ w2) = true -> stopsAt p rest ->
  k (pos + String.length w1)%nat (w2 ++ rest) c = Some res ->
  (forall u v, w2 = u ++ v -> u <> EmptyString ->
     k (pos + String.length w1 + String.length u)%nat (v ++ rest) c = None) ->
  starGreedy p k pos ((w1 ++ w2) ++ rest) c = Some res.
Proof.
  induction w1 as [|a w1 IH]; intros pos rest Hw Hrest Hk Hlater.
  - simpl in *. rewrite Nat.add_0_r in Hk.
    destruct w2 as [|b w2].
    + simpl in *. destruct rest as [|x rest]; simpl; auto.
      simpl in Hrest. now rewrite Hrest.
    + simpl in Hw. apply andb_prop in Hw as [Hb Hw].
      cbn [append starGreedy]. rewrite Hb.
      rewrite (@starGreedy_none p k c w2 (S pos) rest); auto.
      intros u v ->.
      specialize (Hlater (String b u) v eq_refl ltac:(discriminate)).
      simpl in Hlater.
      now replace (S pos + String.length u)%nat
        with (pos + 0 + S (String.length u))%nat by lia.
  - simpl in Hw. apply andb_prop in Hw as [Ha Hw].
    cbn [append starGreedy]. rewrite Ha.
    rewrite (IH (S pos) rest); auto.
    + now replace (S pos + String.length w1)%nat
        with (pos + String.length (String a w1))%nat by (simpl; lia).
    + intros u v Hu Hne. specialize (Hlater u v Hu Hne).
      now replace (S pos + String.length w1 + String.length u)%nat
        with (pos + String.length (String a w1) + String.length u)%nat
        by (simpl; lia).
Qed.

(** ** Running single operators *)

Lemma run_Cat r1 r2 pos s c k :
  run (Cat r1 r2) pos s c k
  = run r1 pos s c (fun pos' s' c' => run r2 pos' s' c' k).
Proof. reflexivity. Qed.

Lemma run_Group n r pos s c k :
  run (Group n r) pos s c k
  = run r pos s c (fun pos' s' c' => k pos' s' ((n, (pos, pos')) :: c')).
Proof. reflexivity. Qed.

Lemma run_Quest r pos s c k :
  run (Quest r) pos s c k
  = match run r pos s c k with
    | Some res => Some res
    | None => k pos s c
    end.
Proof. reflexivity. Qed.

Lemma run_Lit_append l pos s c k :
  run (Lit l) pos (l ++ s) c k = k (pos + String.length l)%nat s c.
Proof. simpl. now rewrite stripPrefix_append. Qed.

Lemma run_Lit_mismatch x l a s pos c k :
  a <> x -> run (Lit (String x l)) pos (String a s) c k = None.
Proof.
  intros H. simpl. destruct (Ascii.eqb_spec x a); [congruence | reflexivity].
Qed.

Lemma run_Class_take (p : ascii -> bool) a s pos c k :
  p a = true -> run (Class p) pos (String a s) c k = k (S pos) s c.
Proof. intros H. simpl. now rewrite H. Qed.

Lemma run_Plus_stops g p s pos c k :
  stopsAt p s -> run (Plus g p) pos s c k = None.
Proof.
  intros H. destruct s as [|a s]; simpl; [reflexivity|].
  simpl in H. now rewrite H.
Qed.

Lemma run_Plus_greedy_take p k c res (w rest : string) pos :
  w <> EmptyString -> allb p w = true -> stopsAt p rest ->
  k (pos + String.length w)%nat rest c = Some res ->
  run (Plus true p) pos (w ++ rest) c k = Some res.
Proof.
  intros Hne Hw Hrest Hk. destruct w as [|a w]; [congruence|].
  simpl in Hw. apply andb_prop in Hw as [Ha Hw].
  cbn [append run star]. rewrite Ha.
  apply starGreedy_take; auto.
  now replace (S pos + String.length w)%nat
    with (pos + String.length (String a w))%nat by (simpl; lia).
Qed.

Lemma run_Plus_greedy_none p k c (w rest : string) pos :
  allb p w = true -> stopsAt p rest ->
  (forall w1 w2, w = w1 ++ w2 -> w1 <> EmptyString ->
     k (pos + String.length w1)%nat (w2 ++ rest) c = None) ->
  run (Plus true p) pos (w ++ rest) c k = None.
Proof.
  intros Hw Hrest Hk. destruct w as [|a w].
  - cbn [append]. now apply run_Plus_stops.
  - simpl in Hw. apply andb_prop in Hw as [Ha Hw].
    cbn [append run star]. rewrite Ha.
    apply starGreedy_none; auto.
    intros w1 w2 ->.
    specialize (Hk (String a w1) w2 eq_refl ltac:(discriminate)).
    simpl in Hk.
    now replace (S pos + String.length w1)%nat
      with (pos + S (String.length w1))%nat by lia.
Qed.

Lemma run_Star_greedy_all p k c res (w : string) pos :
  allb p w = true ->
  k (pos + String.length w)%nat EmptyString c = Some res ->
  run (Star true p) pos w c k = Some res.
Proof.
  intros Hw Hk. cbn [run star].
  rewrite <- (append_nil_r w). apply starGreedy_take; simpl; auto.
Qed.

Lemma run_Star_lazy_skip p k c res (w rest : string) pos :
  allb p w = true ->
  (forall w1 a w2, w = w1 ++ String a w2 ->
     k (pos + String.length w1)%nat (String a w2 ++ rest) c = None) ->
  k (pos + String.length w)%nat rest c = Some res ->
  run (Star false p) pos (w ++ rest) c k = Some res.
Proof.
  intros Hw Hskip Hk. cbn [run star].
  rewrite starLazy_skip; auto. now apply starLazy_stop.
Qed.

(** ** The message pattern on a message of the grammar *)

Lemma digit_not_colon a : isDigit a = true -> a <> ":"%char.
Proof. intros H ->. discriminate. Qed.

Lemma run_tailPattern num desc pos c :
  digits num -> oneLine desc ->
  run tailPattern pos (num ++ ": " ++ desc) c accept
  = Some ((pos + String.length num + 2 + String.length desc)%nat,
          (5%nat, ((pos + String.length num + 2)%nat,
                   (pos + String.length num + 2 + String.length desc)%nat))
          :: (4%nat, (pos, (pos + String.length num)%nat)) :: c).
Proof.
  intros [Hn0 Hnum] Hdesc.
  rewrite run_Cat, run_Group.
  apply run_Plus_greedy_take; auto; [reflexivity|].
  rewrite run_Cat, run_Lit_append, run_Group.
  apply run_Star_greedy_all; auto.
Qed.

Lemma run_tailPattern_stops s pos c k :
  stopsAt isDigit s -> run tailPattern pos s c k = None.
Proof.
  intros H. rewrite run_Cat, run_Group. now apply run_Plus_stops.
Qed.

Lemma allb_tail p a (s : string) :
  allb p (String a s) = true -> p a = true /\ allb p s = true.
Proof. simpl. apply andb_prop. Qed.

Lemma run_positionPattern_line line desc pos c :
  digits line -> oneLine desc ->
  run positionPattern pos (line ++ ": " ++ desc) c accept
  = Some ((pos + String.length line + 2 + String.length desc)%nat,
          (5%nat, ((pos + String.length line + 2)%nat,
                   (pos + String.length line + 2 + String.length desc)%nat))
          :: (4%nat, (pos, (pos + String.length line)%nat)) :: c).
Proof.
  intros Hline Hdesc. rewrite run_Cat, run_Quest.
  rewrite run_tailPattern by assumption.
  match goal with
  | |- match ?inner with _ => _ end = _ => assert (Hnone : inner = None)
  end.
  { rewrite run_Group, run_Cat, run_Group.
    apply run_Plus_greedy_none; [apply Hline | reflexivity |].
    intros w1 w2 Hw Hw1.
    destruct w2 as [|d w2].
    - change (EmptyString ++ ": " ++ desc) with (":" ++ " " ++ desc).
      rewrite run_Lit_append. now apply run_tailPattern_stops.
    - cbn [append]. apply run_Lit_mismatch.
      apply digit_not_colon.
      destruct Hline as [_ Hline]. rewrite Hw, allb_append in Hline.
      apply andb_prop in Hline as [_ Hline].
      now apply allb_tail in Hline. }
  now rewrite Hnone.
Qed.

Lemma run_positionPattern_char line num desc pos c :
  digits line -> digits num -> oneLine desc ->
  run positionPattern pos (line ++ ":" ++ num ++ ": " ++ desc) c accept
  = Some ((pos + String.length line + 1 + String.length num + 2
           + String.length desc)%nat,
          (5%nat, ((pos + String.length line + 1 + String.length num + 2)%nat,
                   (pos + String.length line + 1 + String.length num + 2
                    + String.length desc)%nat))
          :: (4%nat, ((pos + String.length line + 1)%nat,
                      (pos + String.length line + 1 + String.length num)%nat))
          :: (2%nat, (pos, (pos + String.length line + 1)%nat))
          :: (3%nat, (pos, (pos + String.length line)%nat)) :: c).
Proof.
  intros Hline Hnum Hdesc. rewrite run_Cat, run_Quest.
  match goal with
  | |- match ?inner with _ => _ end = Some ?res =>
      assert (Hsome : inner = Some res)
  end.
  { rewrite run_Group, run_Cat, run_Group.
    apply run_Plus_greedy_take; [apply Hline | apply Hline | reflexivity |].
    rewrite run_Lit_append.
    now rewrite run_tailPattern by assumption. }
  now rewrite Hsome.
Qed.

Lemma findFrom_here r pos s e c :
  run r pos s [] accept = Some (e, c) -> findFrom r pos s = Some (pos, e, c).
Proof. intros H. destruct s; simpl; now rewrite H. Qed.

Lemma noColon_split w1 a w2 :
  noColon (w1 ++ String a w2) -> a <> ":"%char.
Proof.
  unfold noColon. rewrite allb_append. intros H.
  apply andb_prop in H as [_ H]. apply allb_tail in H as [H _].
  intros ->. discriminate.
Qed.

(** Where the message pattern finds its groups in a message of the
    grammar whose name holds no colon. *)
Lemma findFrom_grammarMessage name line char desc :
  noColon name -> oneLine name -> digits line ->
  (forall x, char = Some x -> digits x) -> oneLine desc ->
  exists e c,
    findFrom templateErrorRegex 0 (grammarMessage name line char desc)
    = Some (0%nat, e, c)
    /\ map (submatch (grammarMessage name line char desc) c) (seq 1 5)
       = [ name;
           match char with Some _ => line ++ ":" | None => EmptyString end;
           match char with Some _ => line | None => EmptyString end;
           match char with Some x => x | None => line end;
           desc ].
Proof.
  intros Hcolon Hname Hline Hchar Hdesc.
  assert (Hskip : forall X w1 a w2 c k,
             name = w1 ++ String a w2 ->
             run (Lit ":" ## positionPattern)%re
                 (0 + String.length "template: " + String.length w1)%nat
                 (String a w2 ++ X) c k = None).
  { intros X w1 a w2 c k Hn. rewrite run_Cat. cbn [append].
    apply run_Lit_mismatch. rewrite Hn in Hcolon.
    now apply noColon_split in Hcolon. }
  unfold grammarMessage. destruct char as [num|].
  - specialize (Hchar num eq_refl).
    eexists _, _. split.
    + apply findFrom_here. unfold templateErrorRegex.
      rewrite run_Cat, run_Lit_append, run_Cat, run_Group.
      apply run_Star_lazy_skip; [exact Hname | |].
      * intros w1 a w2 Hn. now apply Hskip.
      * rewrite run_Cat, run_Lit_append.
        rewrite <- !append_assoc. rewrite !append_assoc.
        now rewrite run_positionPattern_char by assumption.
    + cbn [map seq submatch lookup Nat.eqb app]. repeat f_equal.
      * cut_span ("template: ")
                 (":" ++ line ++ ":" ++ num ++ ": " ++ desc).
      * cut_span ("template: " ++ name ++ ":") (num ++ ": " ++ desc).
      * cut_span ("template: " ++ name ++ ":") (":" ++ num ++ ": " ++ desc).
      * cut_span ("template: " ++ name ++ ":" ++ line ++ ":") (": " ++ desc).
      * cut_span ("template: " ++ name ++ ":" ++ line ++ ":" ++ num ++ ": ")
                 EmptyString.
  - eexists _, _. split.
    + apply findFrom_here. unfold templateErrorRegex.
      rewrite run_Cat, run_Lit_append, run_Cat, run_Group.
      apply run_Star_lazy_skip; [exact Hname | |].
      * intros w1 a w2 Hn. now apply Hskip.
      * rewrite run_Cat, run_Lit_append.
        change (EmptyString ++ ": " ++ desc) with (": " ++ desc).
        now rewrite run_positionPattern_line by assumption.
    + cbn [map seq submatch lookup Nat.eqb app]. repeat f_equal.
      * cut_span ("template: ") (":" ++ line ++ ": " ++ desc).
      * cut_span ("template: " ++ name ++ ":") (": " ++ desc).
      * cut_span ("template: " ++ name ++ ":" ++ line ++ ": ") EmptyString.
Qed.

(** The extractor on a message of the grammar. *)
Lemma createTemplateError_grammarMessage name line char desc level :
  noColon name -> oneLine name -> digits line ->
  (forall x, char = Some x -> digits x) -> oneLine desc ->
  createTemplateError (grammarMessage name line char desc) level
  = mkTemplateError (storedLine line) (storedChar char) desc level.
Proof.
  intros Hcolon Hname Hline Hchar Hdesc.
  destruct (findFrom_grammarMessage Hcolon Hname Hline Hchar Hdesc)
    as (e & c & Hfind & Hsub).
  unfold createTemplateError, FindStringSubmatch. rewrite Hfind.
  change (NumSubexp templateErrorRegex) with 5%nat. rewrite Hsub.
  cbn [List.length Nat.eqb negb nth].
  destruct char as [x|]; [|reflexivity].
  destruct line as [|a line]; [now destruct Hline|]. reflexivity.
Qed.

(** ** First and last occurrence *)

Lemma IndexFrom_spec sub (s : string) : forall i,
  0 <= i ->
  (strings.IndexFrom i s sub = -1
   /\ forall j, (j <= String.length s)%nat ->
                strings.HasPrefix (drop j s) sub = false)
  \/ exists j,
       strings.IndexFrom i s sub = i + Z.of_nat j
       /\ (j <= String.length s)%nat
       /\ strings.HasPrefix (drop j s) sub = true
       /\ forall j', (j' < j)%nat -> strings.HasPrefix (drop j' s) sub = false.
Proof.
  induction s as [|a s IH]; intros i Hi; cbn [strings.IndexFrom].
  - destruct (strings.HasPrefix EmptyString sub) eqn:Hp.
    + right. exists 0%nat. simpl. repeat split; auto; try lia.
    + left. split; [reflexivity|]. intros j Hj. simpl in Hj.
      assert (j = 0%nat) by lia. now subst.
  - destruct (strings.HasPrefix (String a s) sub) eqn:Hp.
    + right. exists 0%nat. simpl. repeat split; auto; try lia.
    + destruct (IH (i + 1) ltac:(lia)) as [[Hr Hall] | (j & Hr & Hj & Hocc & Hbefore)].
      * left. split; [exact Hr|]. intros [|j] Hj; [exact Hp|].
        simpl in *. apply Hall. lia.
      * right. exists (S j). rewrite Hr. simpl.
        repeat split; auto; try lia.
        intros [|j'] Hj'; [exact Hp|]. simpl. apply Hbefore. lia.
Qed.

Lemma LastIndexFrom_spec sub (s : string) : forall i,
  0 <= i ->
  (strings.LastIndexFrom i s sub = -1
   /\ forall j, (j <= String.length s)%nat ->
                strings.HasPrefix (drop j s) sub = false)
  \/ exists j,
       strings.LastIndexFrom i s sub = i + Z.of_nat j
       /\ (j <= String.length s)%nat
       /\ strings.HasPrefix (drop j s) sub = true
       /\ forall j', (j < j' <= String.length s)%nat ->
                     strings.HasPrefix (drop j' s) sub = false.
Proof.
  induction s as [|a s IH]; intros i Hi; cbn [strings.LastIndexFrom].
  - destruct (strings.HasPrefix EmptyString sub) eqn:Hp.
    + right. exists 0%nat. simpl. repeat split; auto; try lia.
    + left. split; [reflexivity|]. intros j Hj. simpl in Hj.
      assert (j = 0%nat) by lia. now subst.
  - destruct (IH (i + 1) ltac:(lia)) as [[Hr Hall] | (j & Hr & Hj & Hocc & Hafter)].
    + rewrite Hr. cbn [Z.eqb].
      destruct (strings.HasPrefix (String a s) sub) eqn:Hp.
      * right. exists 0%nat. simpl. repeat split; auto; try lia.
        intros [|j'] Hj'; [lia|]. simpl. apply Hall. lia.
      * left. split; [reflexivity|]. intros [|j] Hj; [exact Hp|].
        simpl in *. apply Hall. lia.
    + rewrite Hr.
      destruct (Z.eqb_spec (i + 1 + Z.of_nat j) (-1)); [lia|].
      right. exists (S j). simpl. repeat split; auto; try lia.
      intros [|j'] Hj'; [lia|]. simpl. apply Hafter. lia.
Qed.

(** The offset the locator settles on: that of the only occurrence. *)
Lemma only_occurrence l tok :
  let c := if strings.LastIndex l tok =? strings.Index l tok
           then strings.Index l tok else -1 in
  (forall i, occursOnceAt l tok i -> c = i)
  /\ ((forall i, ~ occursOnceAt l tok i) -> c = -1).
Proof.
  unfold strings.Index, strings.LastIndex, occursOnceAt, occursAt, len.
  destruct (IndexFrom_spec tok l (Z.le_refl 0))
    as [[Hf Hnone] | (j1 & Hf & Hj1 & Hocc1 & Hbefore)];
  destruct (LastIndexFrom_spec tok l (Z.le_refl 0))
    as [[Hl Hnone'] | (j2 & Hl & Hj2 & Hocc2 & Hafter)];
  rewrite Hf, Hl; cbn zeta.
  - split; [|reflexivity].
    intros i [[Hi Hocc] _]. rewrite Hnone in Hocc by lia. discriminate.
  - rewrite Hnone in Hocc2 by lia. discriminate.
  - rewrite Hnone' in Hocc1 by lia. discriminate.
  - destruct (Z.eqb_spec (0 + Z.of_nat j2) (0 + Z.of_nat j1)) as [Heq|Hne].
    + assert (j2 = j1) by lia. subst j2. split.
      * intros i [_ Huniq].
        rewrite <- (Huniq (Z.of_nat j1)); [lia|].
        split; [lia|]. now rewrite Nat2Z.id.
      * intros Hno. exfalso. apply (Hno (Z.of_nat j1)).
        split; [split; [lia | now rewrite Nat2Z.id]|].
        intros j [Hj Hocc].
        destruct (Nat.lt_trichotomy (Z.to_nat j) j1) as [Hlt | [Heq' | Hgt]].
        -- rewrite Hbefore in Hocc by exact Hlt. discriminate.
        -- lia.
        -- rewrite Hafter in Hocc by lia. discriminate.
    + split; [|reflexivity].
      intros i [_ Huniq].
      assert (H1 : Z.of_nat j1 = i).
      { apply Huniq. split; [lia | now rewrite Nat2Z.id]. }
      assert (H2 : Z.of_nat j2 = i).
      { apply Huniq. split; [lia | now rewrite Nat2Z.id]. }
      lia.
Qed.

(** ** The token pattern *)

Lemma run_Plus_greedy_last p k c res (w1 w2 rest : string) pos :
  w1 <> EmptyString -> allb p (w1 ++ w2) = true -> stopsAt p rest ->
  k (pos + String.length w1)%nat (w2 ++ rest) c = Some res ->
  (forall u v, w2 = u ++ v -> u <> EmptyString ->
     k (pos + String.length w1 + String.length u)%nat (v ++ rest) c = None) ->
  run (Plus true p) pos ((w1 ++ w2) ++ rest) c k = Some res.
Proof.
  intros Hne Hw Hrest Hk Hlater. destruct w1 as [|a w1]; [congruence|].
  cbn [append] in Hw. apply allb_tail in Hw as [Ha Hw].
  cbn [append run star]. rewrite Ha.
  apply starGreedy_last; auto.
  - now replace (S pos + String.length w1)%nat
      with (pos + String.length (String a w1))%nat by (simpl; lia).
  - intros u v Hu Hu0. specialize (Hlater u v Hu Hu0).
    now replace (S pos + String.length w1 + String.length u)%nat
      with (pos + String.length (String a w1) + String.length u)%nat
      by (simpl; lia).
Qed.

(** The search moves on over the offsets where the pattern fails. *)
Lemma findFrom_skip r (pre : string) : forall pos s,
  (forall w1 a w2, pre = w1 ++ String a w2 ->
     run r (pos + String.length w1)%nat (String a w2 ++ s) [] accept = None) ->
  findFrom r pos (pre ++ s) = findFrom r (pos + String.length pre)%nat s.
Proof.
  induction pre as [|a pre IH]; intros pos s H.
  - simpl. now rewrite Nat.add_0_r.
  - cbn [append findFrom].
    pose proof (H EmptyString a pre eq_refl) as H0.
    simpl in H0. rewrite Nat.add_0_r in H0. rewrite H0.
    rewrite IH.
    + f_equal. simpl. lia.
    + intros w1 b w2 ->. specialize (H (String a w1) b w2 eq_refl).
      simpl in H.
      now replace (S pos + String.length w1)%nat
        with (pos + S (String.length w1))%nat by lia.
Qed.

Lemma isQuote_anyChar a : isQuote a = true -> anyChar a = true.
Proof.
  unfold isQuote, anyChar. intros H.
  apply orb_prop in H as [H|H]; apply Ascii.eqb_eq in H; subst; reflexivity.
Qed.

Lemma noQuote_split w1 a w2 :
  noQuote (w1 ++ String a w2) -> isQuote a = false.
Proof.
  unfold noQuote. rewrite allb_append. intros H.
  apply andb_prop in H as [_ H]. apply allb_tail in H as [H _].
  now apply negb_true_iff in H.
Qed.

Lemma run_Class_fail (p : ascii -> bool) s pos c k :
  stopsAt p s -> run (Class p) pos s c k = None.
Proof.
  intros H. destruct s as [|a s]; simpl; [reflexivity|].
  simpl in H. now rewrite H.
Qed.

Lemma stopsAt_line_quote s : stopsAt anyChar s -> stopsAt isQuote s.
Proof.
  destruct s as [|a s]; simpl; [auto|]. unfold anyChar. intros H.
  apply negb_false_iff, Ascii.eqb_eq in H. now subst.
Qed.

(** The token pattern matches from the first quote to the last quote
    of the line: [pre] holds no quote, [q1] and [q2] are quotes,
    [post1] is the rest of the line after [q2] and holds no quote. *)
Lemma findFrom_token pre q1 tok q2 post1 post2 :
  noQuote pre -> isQuote q1 = true -> isQuote q2 = true ->
  tok <> EmptyString -> oneLine tok ->
  noQuote post1 -> oneLine post1 -> stopsAt anyChar post2 ->
  findFrom findTokenRegex 0
           (pre ++ String q1 (tok ++ String q2 (post1 ++ post2)))
  = Some (String.length pre,
          (String.length pre + String.length tok + 2)%nat,
          [(1%nat, ((String.length pre + 1)%nat,
                    (String.length pre + 1 + String.length tok)%nat))]).
Proof.
  intros Hpre Hq1 Hq2 Htok0 Htok Hpost1 Hline1 Hpost2.
  rewrite findFrom_skip.
  2:{ intros w1 a w2 Hw. unfold findTokenRegex. rewrite run_Cat.
      cbn [append]. apply run_Class_fail. simpl.
      rewrite Hw in Hpre. now apply noQuote_split in Hpre. }
  cbn [Nat.add].
  replace (String.length pre + String.length tok + 2)%nat
    with (S (String.length pre + 1 + String.length tok)) by lia.
  apply findFrom_here. unfold findTokenRegex.
  rewrite run_Cat, run_Class_take by exact Hq1.
  rewrite run_Cat, run_Group.
  replace (tok ++ String q2 (post1 ++ post2))
    with ((tok ++ String q2 post1) ++ post2)
    by (now rewrite append_assoc).
  replace (S (String.length pre)) with (String.length pre + 1)%nat by lia.
  apply run_Plus_greedy_last; auto.
  - rewrite allb_append. cbn [allb]. unfold oneLine in *.
    now rewrite Htok, Hline1, (isQuote_anyChar _ Hq2).
  - cbn [append]. now rewrite run_Class_take by exact Hq2.
  - intros u v Huv Hu0. apply run_Class_fail.
    destruct u as [|b u]; [congruence|]. inversion Huv; subst.
    destruct v as [|x v]; cbn [append].
    + now apply stopsAt_line_quote.
    + simpl. now apply noQuote_split in Hpost1.
Qed.

(** ** The token locator *)

Lemma slice_middle (a b c : string) (lo hi : Z) :
  lo = len a -> hi = len a + len b ->
  slice (a ++ b ++ c) lo hi = Ret b.
Proof.
  intros -> ->. unfold slice, len.
  rewrite !length_append.
  assert (H : (0 <=? Z.of_nat (String.length a))
              && (Z.of_nat (String.length a)
                  <=? Z.of_nat (String.length a) + Z.of_nat (String.length b))
              && (Z.of_nat (String.length a) + Z.of_nat (String.length b)
                  <=? Z.of_nat (String.length a
                                + (String.length b + String.length c)))
              = true).
  { rewrite !andb_true_iff. repeat split; apply Z.leb_le; lia. }
  rewrite H. f_equal.
  replace (Z.to_nat (Z.of_nat (String.length a))) with (String.length a)
    by lia.
  replace (Z.to_nat (Z.of_nat (String.length a) + Z.of_nat (String.length b)
                     - Z.of_nat (String.length a)))
    with (String.length b) by lia.
  rewrite substring_append_skip. apply substring_prefix.
Qed.

Lemma setChar_same d : Char d = -1 -> setChar d (-1) = d.
Proof. destruct d; simpl; intros ->; reflexivity. Qed.

Lemma locateChar_known lines d : Char d <> -1 -> locateChar lines d = Ret d.
Proof.
  intros H. unfold locateChar.
  now destruct (Z.eqb_spec (Char d) (-1)).
Qed.

Lemma locateChar_no_token lines d :
  FindStringIndex findTokenRegex (Description d) = None ->
  locateChar lines d = Ret d.
Proof.
  intros H. unfold locateChar. rewrite H. now destruct (Char d =? -1).
Qed.

(** Without a quoted span there is no token. *)
Lemma FindStringIndex_no_span s :
  ~ hasQuotedSpan s -> FindStringIndex findTokenRegex s = None.
Proof.
  intros Hs. unfold FindStringIndex.
  destruct (findFrom findTokenRegex 0 s) as [[[b e] c]|] eqn:H; [|reflexivity].
  exfalso. apply Hs. apply findFrom_sound in H.
  destruct H as (pre & w & post & -> & Hd & _).
  unfold findTokenRegex in Hd.
  apply Derives_Cat in Hd as (w1 & r1 & c1 & d1 & -> & _ & H1 & Hd).
  apply Derives_Class in H1 as (q1 & -> & Hq1 & _).
  apply Derives_Cat in Hd as (tok & w2 & c2 & d2 & -> & _ & H2 & H3).
  apply Derives_Class in H3 as (q2 & -> & Hq2 & _).
  apply Derives_Group in H2 as (c3 & _ & H2).
  apply Derives_Plus in H2 as (Htok0 & Htok & _).
  exists pre, q1, tok, q2, post. repeat split; auto.
  now rewrite !append_assoc.
Qed.

(** With a token and a valid line the offset is that of the only
    occurrence of the token on the line, if there is one. *)
Lemma locateChar_token lines d l pre q1 tok q2 post1 post2 :
  Char d = -1 ->
  Description d = pre ++ String q1 (tok ++ String q2 (post1 ++ post2)) ->
  noQuote pre -> isQuote q1 = true -> isQuote q2 = true ->
  tok <> EmptyString -> oneLine tok ->
  noQuote post1 -> oneLine post1 -> stopsAt anyChar post2 ->
  index lines (Line d) = Ret l ->
  locateChar lines d
  = Ret (setChar d (if strings.LastIndex l tok =? strings.Index l tok
                    then strings.Index l tok else -1)).
Proof.
  intros Hc Hdesc Hpre Hq1 Hq2 Htok0 Htok Hpost1 Hline1 Hpost2 Hl.
  unfold locateChar, FindStringIndex. rewrite Hc. cbn [Z.eqb].
  rewrite Hdesc, findFrom_token by assumption. rewrite <- Hdesc.
  assert (Hs : slice (Description d)
                     (Z.of_nat (String.length pre) + 1)
                     (Z.of_nat (String.length pre + String.length tok + 2) - 1)
               = Ret tok).
  { rewrite Hdesc.
    change (pre ++ String q1 (tok ++ String q2 (post1 ++ post2)))
      with (pre ++ String q1 EmptyString
                ++ tok ++ String q2 (post1 ++ post2)).
    rewrite <- append_assoc.
    apply slice_middle; unfold len; rewrite ?length_append; simpl; lia. }
  rewrite Hs. cbn [bind]. rewrite Hl. cbn [bind].
  destruct (_ =? _); [reflexivity|].
  now rewrite setChar_same.
Qed.

(** With a token and no such line the locator panics. *)
Lemma locateChar_panic lines d lo hi tok p :
  Char d = -1 ->
  FindStringIndex findTokenRegex (Description d) = Some (lo, hi) ->
  slice (Description d) (lo + 1) (hi - 1) = Ret tok ->
  index lines (Line d) = Panic p ->
  locateChar lines d = Panic p.
Proof.
  intros Hc Hf Hs Hl. unfold locateChar.
  rewrite Hc, Hf. cbn [Z.eqb]. rewrite Hs. cbn [bind]. now rewrite Hl.
Qed.

(** ** Completeness of the matcher *)

Lemma starGreedy_complete p k c (w : string) : forall pos s',
  allb p w = true ->
  k (pos + String.length w)%nat s' c <> None ->
  starGreedy p k pos (w ++ s') c <> None.
Proof.
  induction w as [|a w IH]; intros pos s' Hw Hk.
  - simpl in *. rewrite Nat.add_0_r in Hk.
    destruct s' as [|b s']; simpl; auto.
    destruct (p b); auto.
    destruct (starGreedy p k (S pos) s' c); [discriminate | auto].
  - apply allb_tail in Hw as [Ha Hw]. cbn [append starGreedy]. rewrite Ha.
    specialize (IH (S pos) s' Hw).
    replace (S pos + String.length w)%nat
      with (pos + String.length (String a w))%nat in IH by (simpl; lia).
    specialize (IH Hk).
    destruct (starGreedy p k (S pos) (w ++ s') c); [discriminate | congruence].
Qed.

Lemma starLazy_complete p k c (w : string) : forall pos s',
  allb p w = true ->
  k (pos + String.length w)%nat s' c <> None ->
  starLazy p k pos (w ++ s') c <> None.
Proof.
  induction w as [|a w IH]; intros pos s' Hw Hk.
  - simpl in *. rewrite Nat.add_0_r in Hk.
    destruct s' as [|b s']; simpl;
      destruct (k pos _ c); try discriminate; congruence.
  - apply allb_tail in Hw as [Ha Hw]. cbn [append starLazy]. rewrite Ha.
    destruct (k pos (String a (w ++ s')) c); [discriminate|].
    apply IH; auto.
    now replace (S pos + String.length w)%nat
      with (pos + String.length (String a w))%nat by (simpl; lia).
Qed.

Lemma star_complete g p k c (w : string) pos s' :
  allb p w = true ->
  k (pos + String.length w)%nat s' c <> None ->
  star g p k pos (w ++ s') c <> None.
Proof.
  destruct g; [apply starGreedy_complete | apply starLazy_complete].
Qed.

(** Whenever a derivation exists and the continuation accepts what
    follows it, the matcher finds some match. *)
Lemma run_complete r pos w new :
  Derives r pos w new ->
  forall s' k,
    (forall c', k (pos + String.length w)%nat s' c' <> None) ->
    forall c, run r pos (w ++ s') c k <> None.
Proof.
  induction 1 as [l pos|p a pos Ha|g p w pos Hw|g p w pos Hne Hw
                  |r pos|r pos w new _ IH|r1 r2 pos w new _ IH
                  |r1 r2 pos w new _ IH
                  |r1 r2 pos w1 w2 new1 new2 _ IH1 _ IH2
                  |n r pos w new _ IH];
    intros s' k Hk c.
  - rewrite run_Lit_append. apply Hk.
  - cbn [append]. rewrite run_Class_take by exact Ha.
    replace (S pos) with (pos + 1)%nat by lia. apply Hk.
  - cbn [run]. apply star_complete; auto.
  - destruct w as [|a w]; [congruence|].
    apply allb_tail in Hw as [Ha Hw]. cbn [append run]. rewrite Ha.
    apply star_complete; auto.
    replace (S pos + String.length w)%nat
      with (pos + String.length (String a w))%nat by (simpl; lia).
    apply Hk.
  - rewrite run_Quest. cbn [append].
    destruct (run r pos s' c k); [discriminate|].
    specialize (Hk c). simpl in Hk. now rewrite Nat.add_0_r in Hk.
  - rewrite run_Quest. specialize (IH s' k Hk c).
    destruct (run r pos (w ++ s') c k); [discriminate | congruence].
  - cbn [run]. specialize (IH s' k Hk c).
    destruct (run r1 pos (w ++ s') c k); [discriminate | congruence].
  - cbn [run]. destruct (run r1 pos (w ++ s') c k); [discriminate|].
    now apply IH.
  - rewrite run_Cat, append_assoc. apply IH1. intros c'. apply IH2.
    intros c''. rewrite <- Nat.add_assoc, <- length_append. apply Hk.
  - rewrite run_Group. apply IH. intros c'. apply Hk.
Qed.

(** Derivations do not depend on the offset, only their submatch
    positions do. *)
Lemma Derives_shift r pos w new :
  Derives r pos w new -> forall pos', exists new', Derives r pos' w new'.
Proof.
  induction 1 as [l pos|p a pos Ha|g p w pos Hw|g p w pos Hne Hw
                  |r pos|r pos w new _ IH|r1 r2 pos w new _ IH
                  |r1 r2 pos w new _ IH
                  |r1 r2 pos w1 w2 new1 new2 _ IH1 _ IH2
                  |n r pos w new _ IH];
    intros pos'.
  - eexists. constructor.
  - eexists. now constructor.
  - eexists. now constructor.
  - eexists. now constructor.
  - eexists. apply D_QuestSkip.
  - destruct (IH pos') as [new' H']. eexists. apply D_QuestTake. exact H'.
  - destruct (IH pos') as [new' H']. eexists. apply D_AltL. exact H'.
  - destruct (IH pos') as [new' H']. eexists. apply D_AltR. exact H'.
  - destruct (IH1 pos') as [n1 H1].
    destruct (IH2 (pos' + String.length w1)%nat) as [n2 H2].
    eexists. apply D_Cat; eassumption.
  - destruct (IH pos') as [new' H']. eexists. apply D_Group. exact H'.
Qed.

Lemma findFrom_complete r w new (pre : string) : forall pos post,
  Derives r 0 w new -> findFrom r pos (pre ++ w ++ post) <> None.
Proof.
  induction pre as [|a pre IH]; intros pos post Hd.
  - cbn [append].
    destruct (Derives_shift Hd pos) as [new' Hd'].
    assert (Hrun : run r pos (w ++ post) [] accept <> None).
    { apply (run_complete Hd'). intros c'. discriminate. }
    destruct (w ++ post); cbn [findFrom];
      destruct (run r pos _ [] accept) as [[e c]|]; try discriminate;
      congruence.
  - cbn [append findFrom].
    destruct (run r pos _ [] accept) as [[e c]|]; [discriminate|].
    now apply IH.
Qed.

(** The message pattern derives every message of the grammar. *)
Lemma grammarMessage_derives name line char desc :
  oneLine name -> digits line ->
  (forall x, char = Some x -> digits x) -> oneLine desc ->
  exists new,
    Derives templateErrorRegex 0 (grammarMessage name line char desc) new.
Proof.
  intros Hname [Hl0 Hline] Hchar Hdesc.
  unfold templateErrorRegex, grammarMessage.
  destruct char as [num|].
  - destruct (Hchar num eq_refl) as [Hn0 Hnum].
    eexists.
    apply D_Cat; [constructor|].
    apply D_Cat; [apply D_Group; now constructor|].
    apply D_Cat; [constructor|].
    replace (line ++ (":" ++ num) ++ ": " ++ desc)
      with ((line ++ ":") ++ num ++ ": " ++ desc)
      by (now rewrite !append_assoc).
    apply D_Cat.
    + apply D_QuestTake, D_Group, D_Cat; [|constructor].
      apply D_Group. now constructor.
    + apply D_Cat; [apply D_Group; now constructor|].
      apply D_Cat; [constructor|]. apply D_Group. now constructor.
  - eexists.
    apply D_Cat; [constructor|].
    apply D_Cat; [apply D_Group; now constructor|].
    apply D_Cat; [constructor|].
    change (line ++ EmptyString ++ ": " ++ desc)
      with (EmptyString ++ line ++ ": " ++ desc).
    apply D_Cat; [apply D_QuestSkip|].
    apply D_Cat; [apply D_Group; now constructor|].
    apply D_Cat; [constructor|]. apply D_Group. now constructor.
Qed.

(** The pattern finds a match exactly in the texts that match the
    grammar. *)
Lemma matchesGrammar_MatchString s :
  matchesGrammar s <-> MatchString templateErrorRegex s = true.
Proof.
  unfold MatchString. split.
  - intros (pre & name & line & char & desc & post
            & -> & Hname & Hline & Hchar & Hdesc).
    destruct (grammarMessage_derives Hname Hline Hchar Hdesc) as [new Hd].
    pose proof (findFrom_complete pre 0 post Hd) as Hf.
    now destruct (findFrom templateErrorRegex 0 _).
  - destruct (findFrom templateErrorRegex 0 s) as [[[b e] c]|] eqn:Hf;
      [|discriminate].
    intros _. apply templateErrorRegex_found in Hf.
    destruct Hf as (pre & name & line & char & desc & post
                    & Herr & Hname & Hline & Hchar & Hdesc & _).
    exists pre, name, line, char, desc, post. auto.
Qed.

(** ** Facts about the worked examples *)

Lemma not_matchesGrammar s :
  MatchString templateErrorRegex s = false -> ~ matchesGrammar s.
Proof.
  intros H Hg. apply matchesGrammar_MatchString in Hg. congruence.
Qed.

Ltac chain_step :=
  eapply chain_cons;
  [ reflexivity
  | cbv; discriminate
  | cbv; reflexivity
  | cbv; reflexivity
  | reflexivity
  | ].

(** The ten undefined functions of [tenText] are cured one stub at a
    time, and the text parses once the ten stubs are in. *)
Lemma tenText_chain :
  exists ds,
    stubChain tenEngine Lines.SplitLines tenText 10
              inputTemplate tenStubbed ds.
Proof.
  eexists. do 10 chain_step. apply chain_nil.
Qed.

(** The nine undefined functions of [nineText] are cured one stub at a
    time. *)
Lemma nineText_chain :
  exists ds,
    stubChain nineEngine Lines.SplitLines nineText 9
              inputTemplate nineStubbed ds.
Proof.
  eexists. do 9 chain_step. apply chain_nil.
Qed.

(** ** Blanking a span *)

Lemma HasPrefix_length s old :
  strings.HasPrefix s old = true ->
  (String.length (drop (String.length old) s) + String.length old
   = String.length s)%nat.
Proof.
  revert s. induction old as [|a old IH]; intros s H; simpl in *.
  - lia.
  - destruct s as [|b s]; [discriminate|].
    apply andb_prop in H as [_ H]. simpl. rewrite <- (IH s H). lia.
Qed.

(** Replacing by a text of the same length keeps the length. *)
Lemma Replace1_length (s old new : string) :
  String.length new = String.length old ->
  String.length (strings.Replace1 s old new) = String.length s.
Proof.
  intros Hlen. induction s as [|a s IH]; cbn [strings.Replace1].
  - destruct (strings.HasPrefix EmptyString old) eqn:Hp; [|reflexivity].
    rewrite length_append, Hlen. pose proof (HasPrefix_length _ _ Hp). lia.
  - destruct (strings.HasPrefix (String a s) old) eqn:Hp.
    + rewrite length_append, Hlen. pose proof (HasPrefix_length _ _ Hp). lia.
    + simpl. now rewrite IH.
Qed.

Lemma blanks_length n : String.length (fmt.blanks n) = n.
Proof. induction n; simpl; congruence. Qed.

(** Up to the widest field of [Sprintf] the replacement is a run of
    blanks of the length asked for. *)
Lemma SprintfPad_blanks (m0 : string) :
  len m0 <= fmt.maxWidth ->
  fmt.SprintfPad (len m0) = fmt.blanks (String.length m0).
Proof.
  intros H. unfold fmt.SprintfPad, len in *.
  rewrite Z.abs_eq by lia.
  destruct (Z.leb_spec (Z.of_nat (String.length m0)) fmt.maxWidth); [|lia].
  now rewrite Zabs2Nat.id.
Qed.

(** Beyond it the replacement is the complaint of [Sprintf]. *)
Lemma SprintfPad_too_wide (m0 : string) :
  fmt.maxWidth < len m0 -> fmt.SprintfPad (len m0) = fmt.noVerbExtra.
Proof.
  intros H. unfold fmt.SprintfPad, len in *.
  rewrite Z.abs_eq by lia.
  destruct (Z.leb_spec (Z.of_nat (String.length m0)) fmt.maxWidth);
    [lia | reflexivity].
Qed.

(** The replacement the empty-command healer puts in has the length
    of the span it replaces, so the healed text has the length of the
    original; this holds for the spans [Sprintf] can pad. *)
Lemma heal_keeps_length (text m0 : string) :
  len m0 <= fmt.maxWidth ->
  String.length (strings.Replace1 text m0 (fmt.SprintfPad (len m0)))
  = String.length text.
Proof.
  intros H. apply Replace1_length.
  now rewrite SprintfPad_blanks, blanks_length.
Qed.

Lemma HasPrefix_split s old :
  strings.HasPrefix s old = true -> s = old ++ drop (String.length old) s.
Proof.
  revert s. induction old as [|a old IH]; intros s H; simpl in *.
  - reflexivity.
  - destruct s as [|b s]; [discriminate|].
    apply andb_prop in H as [Hab H]. apply Ascii.eqb_eq in Hab. subst.
    f_equal. now apply IH.
Qed.

(** [Replace1] rewrites one occurrence of [old] or nothing. *)
Lemma Replace1_occurrence (s old new : string) :
  strings.Replace1 s old new = s
  \/ exists pre post,
       s = pre ++ old ++ post /\ strings.Replace1 s old new = pre ++ new ++ post.
Proof.
  induction s as [|a s IH]; cbn [strings.Replace1].
  - destruct (strings.HasPrefix EmptyString old) eqn:Hp; [|now left].
    right. exists EmptyString, (drop (String.length old) EmptyString).
    split; [now apply HasPrefix_split | reflexivity].
  - destruct (strings.HasPrefix (String a s) old) eqn:Hp.
    + right. exists EmptyString, (drop (String.length old) (String a s)).
      split; [now apply HasPrefix_split | reflexivity].
    + destruct IH as [IH | (pre & post & Hs & IH)].
      * left. now rewrite IH.
      * right. exists (String a pre), post. rewrite IH, Hs at 1. auto.
Qed.

Lemma SplitLines_nonempty (s : string) : Lines.SplitLines s <> [].
Proof.
  destruct s as [|a s]; simpl; [discriminate|].
  destruct (Ascii.eqb a newline); [discriminate|].
  destruct (Lines.SplitLines s); discriminate.
Qed.

Lemma SplitLines_oneLine (x post : string) :
  oneLine x ->
  Lines.SplitLines (x ++ post)
  = match Lines.SplitLines post with
    | l :: ls => (x ++ l) :: ls
    | [] => [x]
    end.
Proof.
  unfold oneLine. induction x as [|a x IH]; intros Hx.
  - simpl. pose proof (SplitLines_nonempty post).
    now destruct (Lines.SplitLines post).
  - apply allb_tail in Hx as [Ha Hx]. unfold anyChar in Ha.
    apply negb_true_iff in Ha. cbn [append Lines.SplitLines].
    rewrite Ha, (IH Hx). now destruct (Lines.SplitLines post).
Qed.

Lemma lineLengths_cons a (s : string) :
  lineLengths (String a s)
  = if Ascii.eqb a newline then 0%nat :: lineLengths s
    else match lineLengths s with
         | n :: ns => S n :: ns
         | [] => [1%nat]
         end.
Proof.
  unfold lineLengths. cbn [Lines.SplitLines].
  destruct (Ascii.eqb a newline); [reflexivity|].
  now destruct (Lines.SplitLines s).
Qed.

(** Two texts that differ in a span without line break, of the same
    length in both, have lines of the same lengths. *)
Lemma lineLengths_span (pre x y post : string) :
  oneLine x -> oneLine y -> String.length x = String.length y ->
  lineLengths (pre ++ x ++ post) = lineLengths (pre ++ y ++ post).
Proof.
  intros Hx Hy Hlen. induction pre as [|a pre IH].
  - cbn [append]. unfold lineLengths.
    rewrite !SplitLines_oneLine by assumption.
    destruct (Lines.SplitLines post); simpl; rewrite ?length_append;
      congruence.
  - cbn [append]. rewrite !lineLengths_cons, IH. reflexivity.
Qed.

Lemma blanks_oneLine n : oneLine (fmt.blanks n).
Proof. unfold oneLine. induction n; simpl; auto. Qed.

(** When the blanked span holds no line break, the healed text has
    the lines of the original, each of its old length. *)
Lemma heal_keeps_lines (text m0 : string) :
  len m0 <= fmt.maxWidth ->
  oneLine m0 ->
  lineLengths (strings.Replace1 text m0 (fmt.SprintfPad (len m0)))
  = lineLengths text.
Proof.
  intros Hw Hm. rewrite (@SprintfPad_blanks m0 Hw).
  destruct (Replace1_occurrence text m0 (fmt.blanks (String.length m0)))
    as [-> | (pre & post & Htext & ->)]; [reflexivity|].
  rewrite Htext. symmetry. apply lineLengths_span; auto.
  - apply blanks_oneLine.
  - now rewrite blanks_length.
Qed.

(** ** When the driver returns *)




Section Returns.

Variable E : Engine.
Variable SplitLines : string -> list string.

(** The engine registers every name it reports as undefined. *)
Hypothesis Funcs_accepts : forall t name, Funcs E t name <> None.

(** The line of every diagnosed parse failure is a line of the text. *)
Hypothesis lines_in_range : forall t text err,
  Parse E t text = inr err ->
  Level (createTemplateError err parseErrorLevel) <> misunderstoodError ->
  0 <= Line (createTemplateError err parseErrorLevel)
    < Z.of_nat (List.length (SplitLines text)).



End Returns.

(** * The claims *)

(** ** C1: the depth bound *)

(** C1, as stated, fails: a call at the depth bound returns before it
    parses.  For the text [unclosedText], which does not parse, the
    call at depth [maxFixes] returns an empty list, so the diagnostic
    of the parse failure is not in it. *)
Lemma bound_call_reports_nothing :
  exists t errs,
    Parse unclosedEngine inputTemplate unclosedText = inr unclosedMessage
    /\ parseInternal unclosedEngine Lines.SplitLines unclosedText
                     inputTemplate maxFixes = Ret (t, errs)
    /\ ~ In (createTemplateError unclosedMessage parseErrorLevel) errs.
Proof.
  exists inputTemplate, []. repeat split; auto.
Qed.

(** C1, amended: a call at depth [maxFixes] or deeper attempts no parse
    and returns the base template with an empty list of diagnostics,
    whether or not the text parses; below the bound, the diagnostic of
    a failed parse heads the returned list (line, description and
    level as extracted, the character offset possibly filled in). *)
Theorem parseInternal_depth_bound
  (E : Engine) (SplitLines : string -> list string)
  (text : string) (t : Template E) (depth : Z) :
  (maxFixes <= depth ->
   parseInternal E SplitLines text t depth = Ret (t, []))
  /\ (depth < maxFixes ->
      forall err t' errs,
        Parse E t text = inr err ->
        parseInternal E SplitLines text t depth = Ret (t', errs) ->
        exists d rest,
          errs = d :: rest
          /\ Line d = Line (createTemplateError err parseErrorLevel)
          /\ Description d
             = Description (createTemplateError err parseErrorLevel)
          /\ Level d = Level (createTemplateError err parseErrorLevel)).
Proof.
  split.
  - apply parseInternal_bound.
  - intros Hd err t' errs Hp Hr. eapply parseInternal_head; eauto.
Qed.

Lemma parseInternal_depth_bound_witness :
  (maxFixes <= 10
   /\ parseInternal unclosedEngine Lines.SplitLines unclosedText
                    inputTemplate 10 = Ret (inputTemplate, []))
  /\ (0 < maxFixes
      /\ exists d rest,
           [mkTemplateError 0 (-1) "unclosed action" parseErrorLevel]
           = d :: rest
           /\ Line d = 0 /\ Description d = "unclosed action"
           /\ Level d = parseErrorLevel).
Proof.
  split.
  - split; [discriminate|].
    apply (proj1 (parseInternal_depth_bound unclosedEngine Lines.SplitLines
                    unclosedText inputTemplate 10)).
    discriminate.
  - split; [reflexivity|].
    apply (proj2 (parseInternal_depth_bound unclosedEngine Lines.SplitLines
                    unclosedText inputTemplate 0) eq_refl
                 unclosedMessage inputTemplate); reflexivity.
Defined.

(** ** C2: exactly [maxFixes] stub heals *)

(** C2, as stated, fails: [tenText] has exactly ten undefined
    functions, each cured by one stub, and parses with the ten stubs;
    yet the top-level call returns the stubbed base template, which no
    parse produced, instead of the parsed template. *)
Lemma ten_heals_return_unparsed :
  exists t errs p,
    stubChain tenEngine Lines.SplitLines tenText 10 inputTemplate t errs
    /\ Parse tenEngine t tenText = inl p
    /\ parse tenEngine Lines.SplitLines tenText inputTemplate = Ret (t, errs)
    /\ List.length errs = 10%nat
    /\ mockTree t = None
    /\ forall base q, Parse tenEngine base tenText = inl q -> q <> t.
Proof.
  destruct tenText_chain as [ds Hc].
  exists tenStubbed, ds, (mkMock "input template" (rev tenFunctions)
                                 (Some tenText)).
  split; [exact Hc|]. split; [reflexivity|].
  split; [apply (stubChain_run Hc 0); reflexivity|].
  split; [apply (stubChain_length Hc)|].
  split; [reflexivity|].
  intros base q Hq ->. cbn in Hq.
  destruct (undefinedFunctions tenFunctions (mockFuncs base) tenText);
    inversion Hq.
Qed.

(** C2, amended: when the text has [n] undefined-function errors in a
    row, each cured by one stub, the top-level call returns exactly
    [n] diagnostics, all at the parse level, one per healed error.
    With [n = maxFixes] the template returned is the base template
    carrying the [maxFixes] stubs, not parsed, because the parse after
    the last heal is refused by the depth bound; with [n < maxFixes]
    it is the successfully parsed template. *)
Theorem parse_stub_heals
  (E : Engine) (SplitLines : string -> list string)
  (text : string) (n : nat) (t tn : Template E) (ds : list templateError) :
  stubChain E SplitLines text n t tn ds ->
  List.length ds = n
  /\ Forall (fun d => Level d = parseErrorLevel) ds
  /\ (Z.of_nat n = maxFixes -> parse E SplitLines text t = Ret (tn, ds))
  /\ (Z.of_nat n < maxFixes ->
      forall p, Parse E tn text = inl p ->
                parse E SplitLines text t = Ret (p, ds)).
Proof.
  intros Hc. split; [apply (stubChain_length Hc)|].
  split; [apply (stubChain_levels Hc)|].
  destruct (stubChain_run Hc 0) as [H1 H2].
  split.
  - intros Hn. apply H2. lia.
  - intros Hn p Hp. apply H1; [lia | exact Hp].
Qed.

Lemma parse_stub_heals_witness :
  (exists ds,
     stubChain tenEngine Lines.SplitLines tenText 10
               inputTemplate tenStubbed ds
     /\ List.length ds = 10%nat
     /\ Forall (fun d => Level d = parseErrorLevel) ds
     /\ parse tenEngine Lines.SplitLines tenText inputTemplate
        = Ret (tenStubbed, ds))
  /\ (exists ds,
        stubChain nineEngine Lines.SplitLines nineText 9
                  inputTemplate nineStubbed ds
        /\ List.length ds = 9%nat
        /\ parse nineEngine Lines.SplitLines nineText inputTemplate
           = Ret (mkMock "input template" (rev (tl tenFunctions))
                         (Some nineText), ds)).
Proof.
  split.
  - destruct tenText_chain as [ds Hc]. exists ds.
    destruct (parse_stub_heals Hc) as (Hlen & Hlvl & Hten & _).
    split; [exact Hc|]. split; [exact Hlen|]. split; [exact Hlvl|].
    apply Hten. reflexivity.
  - destruct nineText_chain as [ds Hc]. exists ds.
    destruct (parse_stub_heals Hc) as (Hlen & _ & _ & Hnine).
    split; [exact Hc|]. split; [exact Hlen|].
    apply Hnine; reflexivity.
Defined.

(** ** C3: the two forms of message *)

(** C3: on a message of the line-only form the extractor stores the
    line number less one, the character offset -1 and the description;
    on a message of the line and character form it stores the line
    number less one, the character offset as given and the
    description.  The name holds no colon, name and description hold
    no line break, and the numbers fit Go's [int].  The two messages of
    the specification are instances, see the witness. *)
Theorem createTemplateError_forms
  (name line : string) (char : option string) (description : string)
  (level : ErrorLevel) :
  noColon name -> oneLine name -> oneLine description ->
  representable line ->
  (forall c, char = Some c -> representable c) ->
  createTemplateError (grammarMessage name line char description) level
  = mkTemplateError (decimal line - 1)
                    match char with
                    | Some c => decimal c
                    | None => -1
                    end
                    description level.
Proof.
  intros Hcolon Hname Hdesc [Hline Hfit] Hchar.
  rewrite createTemplateError_grammarMessage; auto.
  2:{ intros x Hx. apply (Hchar x Hx). }
  rewrite (storedLine_digits Hline).
  apply Z.leb_le in Hfit. rewrite Hfit.
  destruct char as [c|]; [|reflexivity].
  destruct (Hchar c eq_refl) as [Hc Hcfit].
  rewrite (storedChar_digits Hc).
  apply Z.leb_le in Hcfit. now rewrite Hcfit.
Qed.

Lemma representable_literal s :
  s <> EmptyString -> allb isDigit s = true -> (decimal s <=? maxInt) = true ->
  representable s.
Proof.
  intros H0 H1 H2. split; [split; assumption|]. now apply Z.leb_le.
Qed.

Lemma createTemplateError_forms_witness :
  (noColon "X" /\ oneLine "X" /\ oneLine "some error"
   /\ representable "12"
   /\ createTemplateError "template: X:12: some error" parseErrorLevel
      = mkTemplateError 11 (-1) "some error" parseErrorLevel)
  /\ (representable "3" /\ representable "5"
      /\ createTemplateError "template: X:3:5: some error" parseErrorLevel
         = mkTemplateError 2 5 "some error" parseErrorLevel).
Proof.
  assert (H12 : representable "12")
    by (apply representable_literal;
        [discriminate | reflexivity | reflexivity]).
  assert (H3 : representable "3")
    by (apply representable_literal;
        [discriminate | reflexivity | reflexivity]).
  assert (H5 : representable "5")
    by (apply representable_literal;
        [discriminate | reflexivity | reflexivity]).
  split.
  - repeat (split; [first [reflexivity | exact H12]|]).
    apply (@createTemplateError_forms "X" "12" None "some error"
             parseErrorLevel eq_refl eq_refl eq_refl H12).
    discriminate.
  - split; [exact H3|]. split; [exact H5|].
    apply (@createTemplateError_forms "X" "3" (Some "5") "some error"
             parseErrorLevel eq_refl eq_refl eq_refl H3).
    intros c Hc. inversion Hc; subst. exact H5.
Defined.

(** ** C4: texts outside the grammar *)

(** C4, as stated, fails: [prefixedMessage] is not a message of the
    grammar, it deviates from it by the word before [template], and
    yet the extractor does not answer Misunderstood: the pattern is not
    anchored, and the extractor reads the message the text holds. *)
Lemma prefixed_message_is_read :
  ~ isGrammarMessage prefixedMessage
  /\ createTemplateError prefixedMessage parseErrorLevel
     = mkTemplateError 11 (-1) "some error" parseErrorLevel
  /\ createTemplateError prefixedMessage parseErrorLevel
     <> mkTemplateError (-1) (-1) prefixedMessage misunderstoodError.
Proof.
  split; [|split].
  - intros (name & line & char & description & H & _).
    unfold prefixedMessage, grammarMessage in H. cbn [append] in H.
    discriminate H.
  - reflexivity.
  - discriminate.
Qed.

(** C4, amended: for every text that holds no message of the grammar,
    at its start or anywhere after it, the extractor returns the
    Misunderstood diagnostic with line -1, character -1 and the whole
    text as description.  The extractor is a total function: it
    returns on every text. *)
Theorem createTemplateError_degrades (err : string) (level : ErrorLevel) :
  ~ matchesGrammar err ->
  createTemplateError err level
  = mkTemplateError (-1) (-1) err misunderstoodError.
Proof. apply createTemplateError_no_grammar. Qed.

Lemma createTemplateError_degrades_witness :
  ~ matchesGrammar "boom"
  /\ createTemplateError "boom" parseErrorLevel
     = mkTemplateError (-1) (-1) "boom" misunderstoodError.
Proof.
  assert (H : ~ matchesGrammar "boom")
    by (apply not_matchesGrammar; reflexivity).
  split; [exact H|].
  exact (@createTemplateError_degrades "boom" parseErrorLevel H).
Defined.

(** ** C5: the token locator *)

Lemma occursOnceAt_Index l tok i :
  0 <= i -> strings.Index l tok = i -> strings.LastIndex l tok = i ->
  occursOnceAt l tok i.
Proof.
  unfold strings.Index, strings.LastIndex, occursOnceAt, occursAt, len.
  intros Hi Hf Hl.
  destruct (IndexFrom_spec tok l (Z.le_refl 0))
    as [[Hf' _] | (j1 & Hf' & Hj1 & Hocc1 & Hbefore)]; [lia|].
  destruct (LastIndexFrom_spec tok l (Z.le_refl 0))
    as [[Hl' _] | (j2 & Hl' & Hj2 & Hocc2 & Hafter)]; [lia|].
  assert (j2 = j1) by lia. subst j2.
  assert (Hij : i = Z.of_nat j1) by lia.
  clear Hf Hl Hf' Hl'. subst i.
  rewrite Nat2Z.id. split; [split; [lia | assumption]|].
  intros j [Hj Hocc].
  destruct (Nat.lt_trichotomy (Z.to_nat j) j1) as [Hlt | [Heq | Hgt]].
  - rewrite Hbefore in Hocc by exact Hlt. discriminate.
  - lia.
  - rewrite Hafter in Hocc by lia. discriminate.
Qed.

(** C5, as stated, fails: the description [twoSpans] holds the quoted
    spans [name] and [end]; the first of them occurs exactly once in
    the line, at offset 2, yet the locator leaves the character offset
    at -1, because the token it looks for runs from the first quote to
    the last one. *)
Lemma locator_takes_longest_span :
  Description twoSpansError
  = "expected " ++ quoted "name" ++ " before " ++ quoted "end"
  /\ occursOnceAt twoSpansLine "name" 2
  /\ locateChar [twoSpansLine] twoSpansError = Ret twoSpansError
  /\ Char twoSpansError = -1.
Proof.
  split; [reflexivity|]. split; [|split; reflexivity].
  apply occursOnceAt_Index; [discriminate | reflexivity | reflexivity].
Qed.

(** C5, amended: for a diagnostic with character offset -1, the
    candidate token is the text between the first quote of the
    description and the last quote on the same line of the
    description (the longest span, not the shortest).  If the line
    [Line d] of the source exists and the token occurs in it exactly
    once, the character offset becomes the offset of that occurrence;
    if it occurs several times or not at all, or if the description
    holds no quoted span, the offset stays -1. *)
Theorem locateChar_longest_span
  (lines : list string) (d : templateError) :
  Char d = -1 ->
  (~ hasQuotedSpan (Description d) -> locateChar lines d = Ret d)
  /\ (forall l pre q1 tok q2 post1 post2,
        Description d = pre ++ String q1 (tok ++ String q2 (post1 ++ post2)) ->
        noQuote pre -> isQuote q1 = true -> isQuote q2 = true ->
        tok <> EmptyString -> oneLine tok ->
        noQuote post1 -> oneLine post1 -> stopsAt anyChar post2 ->
        index lines (Line d) = Ret l ->
        exists c,
          locateChar lines d = Ret (setChar d c)
          /\ (forall i, occursOnceAt l tok i -> c = i)
          /\ ((forall i, ~ occursOnceAt l tok i) -> c = -1)).
Proof.
  intros Hc. split.
  - intros Hq. apply locateChar_no_token. now apply FindStringIndex_no_span.
  - intros l pre q1 tok q2 post1 post2 Hdesc Hpre Hq1 Hq2 Htok0 Htok
           Hpost1 Hline1 Hpost2 Hl.
    eexists. split.
    + eapply locateChar_token; eassumption.
    + apply only_occurrence.
Qed.

Lemma locateChar_longest_span_witness :
  Char undefinedFoo = -1
  /\ Description undefinedFoo
     = "function "
       ++ String dquote ("foo" ++ String dquote (" not defined" ++ EmptyString))
  /\ index ["{{foo}}"] (Line undefinedFoo) = Ret "{{foo}}"
  /\ occursOnceAt "{{foo}}" "foo" 2
  /\ locateChar ["{{foo}}"] undefinedFoo = Ret (setChar undefinedFoo 2).
Proof.
  assert (Hone : occursOnceAt "{{foo}}" "foo" 2)
    by (apply occursOnceAt_Index; [discriminate | reflexivity | reflexivity]).
  split; [reflexivity|]. split; [reflexivity|]. split; [reflexivity|].
  split; [exact Hone|].
  destruct (proj2 (@locateChar_longest_span ["{{foo}}"] undefinedFoo eq_refl)
              "{{foo}}" "function " dquote "foo" dquote
              " not defined" EmptyString
              eq_refl eq_refl eq_refl eq_refl ltac:(discriminate)
              eq_refl eq_refl eq_refl I eq_refl)
    as (c & Hloc & Hc & _).
  rewrite Hloc, (Hc 2 Hone). reflexivity.
Defined.

(** ** C6: blanking an empty action *)

(** C6, failing input: in [brokenText] the empty action found by the
    healer spans a line break.  Blanking it keeps the length of the
    text but joins the first two lines: the text goes from three lines
    to two, the second empty action moves from line index 2 to line
    index 1, and the diagnostic of the retry carries line index 1,
    which in the original text is the line of the closing braces. *)
Theorem empty_action_heal_joins_lines :
  nth 0 (FindStringSubmatch firstEmptyCommandRegex brokenText) EmptyString
  = brokenAction
  /\ strings.Replace1 brokenText brokenAction
                      (fmt.SprintfPad (len brokenAction)) = brokenHealed
  /\ String.length brokenHealed = String.length brokenText
  /\ Lines.SplitLines brokenText = ["{{"; "}}"; "{{}}"]
  /\ Lines.SplitLines brokenHealed = ["     "; "{{}}"]
  /\ parse brokenEngine Lines.SplitLines brokenText inputTemplate
     = Ret (mkMock "input template" [] (Some ("     " ++ nl ++ "    ")),
            [ mkTemplateError 1 (-1) "missing value for command"
                              parseErrorLevel;
              mkTemplateError 1 0 "missing value for command"
                              parseErrorLevel ]).
Proof. repeat split; reflexivity. Qed.

(** ** C7: panics *)

(** C7, failing inputs: the driver panics when the message of a failed
    parse names a line the text does not have and quotes a token, and
    when the name of an undefined function is one the engine refuses
    to register. *)
Theorem parse_panics :
  (Parse farLineEngine inputTemplate "x" = inr farLineMessage
   /\ parse farLineEngine Lines.SplitLines "x" inputTemplate
      = Panic IndexOutOfRange)
  /\ (Parse oddEngine inputTemplate oddText
      = inr ("template: input template:1: function " ++ quoted oddName
             ++ " not defined")
      /\ Funcs oddEngine inputTemplate oddName = None
      /\ parse oddEngine Lines.SplitLines oddText inputTemplate
         = Panic BadFunctionName).
Proof. repeat split; reflexivity. Qed.

(** ** C8: the execution translator *)

(** A plain name is written by [strconv.Quote] as it is, between
    double quotes. *)
Lemma quoteByte_plain (c : ascii) :
  plainByte c = true -> strconv.quoteByte c = Some (String c EmptyString).
Proof.
  unfold plainByte, strconv.quoteByte. intros H.
  apply andb_prop in H as [H H92]. apply andb_prop in H as [H H34].
  apply negb_true_iff in H92, H34. now rewrite H34, H92, H.
Qed.

Lemma quoteBody_plain (name : string) :
  plainName name ->
  strconv.quoteBody name = Some (name ++ String dquote EmptyString).
Proof.
  unfold plainName. induction name as [|c name IH]; intros H; [reflexivity|].
  cbn [allb] in H. apply andb_prop in H as [Hc H].
  cbn [strconv.quoteBody]. now rewrite (quoteByte_plain _ Hc), (IH H).
Qed.

(** For a plain name the message of the engine is the text [exec]
    compares with. *)
Lemma engineEmptyMessage_plain (name : string) :
  plainName name ->
  engineEmptyMessage name = Some (emptyTemplateMessage name).
Proof.
  intros H. unfold engineEmptyMessage, strconv.Quote, emptyTemplateMessage.
  rewrite (quoteBody_plain H). cbn [append].
  now rewrite !append_assoc.
Qed.

(** So [exec] reports nothing for a template without a body whose
    name is plain, as the name [input template] of the program is. *)
Lemma exec_suppresses_plain_name
  (E : Engine) (t : Template E) (data : Data E) (buf out : string) :
  plainName (Name E t) ->
  Execute E t data = (out, engineEmptyMessage (Name E t)) ->
  execErrs (exec E t data buf) = [].
Proof.
  intros Hplain H. rewrite (engineEmptyMessage_plain Hplain) in H.
  now rewrite (exec_suppressed E t data buf H).
Qed.


(** ** C9: the invariant of the extractor *)




(** ** C10: execution failures outside the grammar *)

(** C10: when execution fails with a message that is not the
    suppressed one and does not match the grammar, the one diagnostic
    of [exec] is Misunderstood, with line -1, character offset -1 and
    the message as description: the exec level asked for is dropped. *)
Theorem exec_misunderstood
  (E : Engine) (t : Template E) (data : Data E) (buf out msg : string) :
  Execute E t data = (out, Some msg) ->
  msg <> emptyTemplateMessage (Name E t) ->
  ~ matchesGrammar msg ->
  execErrs (exec E t data buf)
  = [mkTemplateError (-1) (-1) msg misunderstoodError].
Proof.
  intros H Hne Hg.
  rewrite (proj1 (exec_failure E t data buf H Hne)).
  now rewrite createTemplateError_no_grammar.
Qed.

Lemma exec_misunderstood_witness :
  Execute boomEngine inputTemplate tt = (EmptyString, Some "boom")
  /\ "boom" <> emptyTemplateMessage "input template"
  /\ ~ matchesGrammar "boom"
  /\ execErrs (exec boomEngine inputTemplate tt EmptyString)
     = [mkTemplateError (-1) (-1) "boom" misunderstoodError].
Proof.
  assert (H : ~ matchesGrammar "boom")
    by (apply not_matchesGrammar; reflexivity).
  split; [reflexivity|]. split; [discriminate|]. split; [exact H|].
  apply (@exec_misunderstood boomEngine inputTemplate tt
           EmptyString EmptyString "boom");
    [reflexivity | discriminate | exact H].
Defined.

(** * Further properties *)

(** ** The extractor *)

(** X1: when the level asked for is not Misunderstood, the extractor
    keeps it exactly on the texts that hold a message of the grammar
    somewhere in them, and answers Misunderstood exactly on all
    others. *)
Theorem createTemplateError_keeps_level (err : string) (level : ErrorLevel) :
  level <> misunderstoodError ->
  (Level (createTemplateError err level) = level <-> matchesGrammar err)
  /\ (Level (createTemplateError err level) = misunderstoodError
      <-> ~ matchesGrammar err).
Proof.
  intros Hlvl.
  assert (Hyes : matchesGrammar err ->
                 Level (createTemplateError err level) = level).
  { intros H. apply matchesGrammar_MatchString in H. unfold MatchString in H.
    destruct (findFrom templateErrorRegex 0 err) as [[[b e] c]|] eqn:Hf;
      [|discriminate].
    destruct (@createTemplateError_matched err level b e c Hf)
      as (pre & name & line & char & desc & post & _ & _ & _ & _ & _ & ->).
    reflexivity. }
  assert (Hno : ~ matchesGrammar err ->
                Level (createTemplateError err level) = misunderstoodError).
  { intros H. now rewrite createTemplateError_no_grammar. }
  split; split; auto.
  - intros H.
    destruct (MatchString templateErrorRegex err) eqn:Hm.
    + now apply matchesGrammar_MatchString.
    + rewrite Hno in H by (now apply not_matchesGrammar). congruence.
  - intros H Hg. rewrite (Hyes Hg) in H. congruence.
Qed.

Lemma createTemplateError_keeps_level_witness :
  execErrorLevel <> misunderstoodError
  /\ (Level (createTemplateError nilFieldMessage execErrorLevel)
      = execErrorLevel <-> matchesGrammar nilFieldMessage)
  /\ (Level (createTemplateError nilFieldMessage execErrorLevel)
      = misunderstoodError <-> ~ matchesGrammar nilFieldMessage).
Proof.
  assert (H : execErrorLevel <> misunderstoodError) by discriminate.
  split; [exact H|].
  exact (@createTemplateError_keeps_level nilFieldMessage execErrorLevel H).
Defined.

(** X2: the description of a diagnostic is a piece of the error text,
    taken as it stands; unless the diagnostic is the Misunderstood one
    that carries the whole text, it holds no line break. *)
Theorem createTemplateError_description (err : string) (level : ErrorLevel) :
  contains err (Description (createTemplateError err level))
  /\ (createTemplateError err level
      = mkTemplateError (-1) (-1) err misunderstoodError
      \/ oneLine (Description (createTemplateError err level))).
Proof.
  destruct (createTemplateError_cases err level) as [-> | H].
  - split; [|now left]. exists EmptyString, EmptyString. simpl.
    now rewrite append_nil_r.
  - destruct H as (pre & name & line & char & desc & post
                   & Herr & _ & _ & _ & Hdesc & ->).
    split; [|now right]. cbn [Description].
    unfold grammarMessage in Herr.
    exists (pre ++ "template: " ++ name ++ ":" ++ line
                ++ match char with
                   | Some c => ":" ++ c
                   | None => EmptyString
                   end ++ ": "), post.
    rewrite Herr. now rewrite !append_assoc.
Qed.

(** ** The driver *)

Lemma IndexFrom_lower sub (s : string) i :
  0 <= i -> -1 <= strings.IndexFrom i s sub.
Proof.
  intros Hi.
  destruct (IndexFrom_spec sub s Hi) as [[-> _] | (j & -> & _)]; lia.
Qed.

(** The locator keeps the character offset at -1 or above. *)
Lemma locateChar_lower lines d d' :
  -1 <= Char d -> locateChar lines d = Ret d' -> -1 <= Char d'.
Proof.
  intros Hc. unfold locateChar.
  destruct (Char d =? -1); [|intros H; inversion H; subst; auto].
  destruct (FindStringIndex _ _) as [[lo hi]|];
    [|intros H; inversion H; subst; auto].
  destruct (slice _ _ _); simpl; try discriminate.
  destruct (index _ _); simpl; try discriminate.
  destruct (_ =? _); intros H; inversion H; subst; auto.
  simpl. apply IndexFrom_lower. lia.
Qed.

Lemma FindStringIndex_lower r s lo hi :
  FindStringIndex r s = Some (lo, hi) -> 0 <= lo.
Proof.
  unfold FindStringIndex.
  destruct (findFrom r 0 s) as [[[b e] c]|]; inversion 1. lia.
Qed.

Lemma createTemplateError_wellFormed err :
  wellFormed (createTemplateError err parseErrorLevel).
Proof.
  unfold wellFormed.
  destruct (createTemplateError_cases err parseErrorLevel) as [-> | H].
  - cbn. repeat split; try lia. now right.
  - destruct H as (pre & name & line & char & desc & post
                   & _ & _ & Hline & Hchar & _ & ->).
    cbn [Line Char Level]. split; [now apply storedLine_lower|].
    split; [now apply storedChar_lower | now left].
Qed.

Lemma parseLevelButLast_nil : parseLevelButLast [].
Proof. intros init last H. now destruct init. Qed.

Lemma parseLevelButLast_one d : parseLevelButLast [d].
Proof.
  intros init last H. destruct init as [|x init]; [constructor|].
  inversion H. now destruct init.
Qed.

Lemma parseLevelButLast_cons d errs :
  Level d = parseErrorLevel -> parseLevelButLast errs ->
  parseLevelButLast (d :: errs).
Proof.
  intros Hd Herrs init last H. destruct init as [|x init]; [constructor|].
  inversion H; subst. constructor; [assumption|]. now apply (Herrs init last).
Qed.

Lemma wellFormed_healed d :
  wellFormed d -> Level d <> misunderstoodError -> Level d = parseErrorLevel.
Proof. intros (_ & _ & [H|H]) Hne; congruence. Qed.

Lemma wellFormed_located lines d d' :
  wellFormed d -> locateChar lines d = Ret d' -> wellFormed d'.
Proof.
  intros (Hl & Hc & Hlvl) Hloc. pose proof (@locateChar_lower lines d d' Hc Hloc).
  apply locateChar_fields in Hloc as (Hl' & _ & Hlvl').
  unfold wellFormed. rewrite Hl', Hlvl'. repeat split; auto.
Qed.

Lemma wellFormed_setChar d c : wellFormed d -> -1 <= c -> wellFormed (setChar d c).
Proof. intros (Hl & Hc & Hlvl) H. repeat split; auto. Qed.

Section DriverLists.

Variable E : Engine.
Variable SplitLines : string -> list string.

Local Abbreviation body := (parseInternalBody E SplitLines).
Local Abbreviation driver := (parseInternal E SplitLines).

Lemma parseInternalBody_bounded self text t depth n :
  (forall text' t', boundedResult n (self text' t' (depth + 1))) ->
  boundedResult (S n) (body self text t depth).
Proof.
  intros Hself. unfold parseInternalBody.
  assert (Hnil : boundedResult (S n) (Ret (t, @nil templateError))).
  { cbn. repeat split; [lia | constructor | apply parseLevelButLast_nil]. }
  assert (Hone : forall (t0 : Template E) d,
             wellFormed d -> boundedResult (S n) (Ret (t0, [d]))).
  { intros t0 d Hd. cbn.
    repeat split; [lia | now constructor | apply parseLevelButLast_one]. }
  assert (Hcons : forall d (r : Res (Template E * list templateError)),
             wellFormed d -> Level d <> misunderstoodError ->
             boundedResult n r ->
             boundedResult (S n)
               (' (t0, parseTplErrs) <- r ;;
                Ret (t0, ([d] ++ parseTplErrs)%list))).
  { intros d r Hd Hlvl Hr. destruct r as [[t0 errs]| |]; cbn; auto.
    destruct Hr as (Hlen & Hwf & Hlast).
    repeat split; [lia | now constructor |].
    apply parseLevelButLast_cons; auto. now apply wellFormed_healed. }
  destruct (depth >=? maxFixes); [exact Hnil|].
  destruct (Parse E t text) as [p|err].
  { cbn. repeat split; [lia | constructor | apply parseLevelButLast_nil]. }
  pose proof (createTemplateError_wellFormed err) as Hwf.
  destruct (String.eqb_spec (Level (createTemplateError err parseErrorLevel))
                            misunderstoodError) as [Hmis|Hlvl];
    cbn [negb]; [now apply Hone|].
  destruct (locateChar _ _) as [d| |] eqn:Hloc; cbn [bind]; try exact I.
  pose proof (@wellFormed_located _ _ _ Hwf Hloc) as Hd.
  assert (Hdl : Level d <> misunderstoodError).
  { apply locateChar_fields in Hloc as (_ & _ & ->). exact Hlvl. }
  destruct (FindStringSubmatch functionNotFoundRegex _).
  - destruct (MatchString _ _); [|now apply Hone].
    destruct (FindStringSubmatch firstEmptyCommandRegex text) as [|m0 ms];
      [now apply Hone|].
    destruct (index _ _) as [line| |]; cbn [bind]; try exact I.
    apply Hcons; [| |apply Hself].
    + destruct (FindStringIndex _ line) as [[lo hi]|] eqn:Hf; [|exact Hd].
      apply wellFormed_setChar; [exact Hd|].
      apply FindStringIndex_lower in Hf. lia.
    + now destruct (FindStringIndex _ line) as [[lo hi]|].
  - unfold callFuncs. destruct (Funcs E t _); cbn [bind]; try exact I.
    apply Hcons; auto.
Qed.

Lemma parseInternal_bounded : forall n text t depth,
  Z.to_nat (maxFixes - depth) = n -> boundedResult n (driver text t depth).
Proof.
  induction n as [|n IH]; intros text t depth Hn.
  - rewrite parseInternal_bound by lia. cbn.
    repeat split; [lia | constructor | apply parseLevelButLast_nil].
  - rewrite parseInternal_unfold. apply parseInternalBody_bounded.
    intros text' t'. apply IH. lia.
Qed.

(** X3: a parse failure whose message is outside the grammar ends the
    recovery at once: below the depth bound the driver returns the
    base template and the single Misunderstood diagnostic that carries
    the message, and tries no healer. *)
Theorem parseInternal_misunderstood_stops
  (text : string) (t : Template E) (depth : Z) (err : string) :
  depth < maxFixes ->
  Parse E t text = inr err ->
  ~ matchesGrammar err ->
  driver text t depth
  = Ret (t, [mkTemplateError (-1) (-1) err misunderstoodError]).
Proof.
  intros Hd Hp Hg. rewrite parseInternal_unfold. unfold parseInternalBody.
  destruct (Z.geb_spec depth maxFixes); [lia|]. rewrite Hp.
  now rewrite createTemplateError_no_grammar.
Qed.

(** X4: below the depth bound the driver returns an empty list of
    diagnostics exactly when the first parse succeeds, and the
    template it returns is then the parsed one. *)
Theorem parseInternal_clean_iff
  (text : string) (t t' : Template E) (depth : Z) :
  depth < maxFixes ->
  (driver text t depth = Ret (t', []) <-> Parse E t text = inl t').
Proof.
  intros Hd. split.
  - intros H. destruct (Parse E t text) as [p|err] eqn:Hp.
    + rewrite parseInternal_unfold in H. unfold parseInternalBody in H.
      destruct (Z.geb_spec depth maxFixes); [lia|]. rewrite Hp in H.
      congruence.
    + destruct (@parseInternal_head E SplitLines text t depth err t' [] Hd Hp H)
        as (d & rest & Hnil & _).
      discriminate.
  - intros Hp. rewrite parseInternal_unfold. unfold parseInternalBody.
    destruct (Z.geb_spec depth maxFixes); [lia|]. now rewrite Hp.
Qed.

(** X5: the list of diagnostics is bounded: a call at depth [depth]
    returns at most [maxFixes - depth] diagnostics, so the top-level
    call returns at most [maxFixes]. *)
Theorem parseInternal_diagnostics_bounded
  (text : string) (t t' : Template E) (depth : Z)
  (errs : list templateError) :
  driver text t depth = Ret (t', errs) ->
  Z.of_nat (List.length errs) <= Z.max 0 (maxFixes - depth).
Proof.
  intros H.
  pose proof (@parseInternal_bounded _ text t depth eq_refl) as Hb.
  rewrite H in Hb. destruct Hb as (Hlen & _). lia.
Qed.

(** X6: every diagnostic the driver returns has line and character
    offset at least -1 and is at the parse level or Misunderstood;
    only the last one of the list can be Misunderstood, since such a
    diagnostic ends the recovery. *)
Theorem parseInternal_diagnostics_levels
  (text : string) (t t' : Template E) (depth : Z)
  (errs : list templateError) :
  driver text t depth = Ret (t', errs) ->
  Forall wellFormed errs
  /\ forall init last,
       errs = (init ++ [last])%list ->
       Forall (fun d => Level d = parseErrorLevel) init.
Proof.
  intros H.
  pose proof (@parseInternal_bounded _ text t depth eq_refl) as Hb.
  rewrite H in Hb. destruct Hb as (_ & Hwf & Hlast). split; assumption.
Qed.

End DriverLists.

Lemma brokenText_result :
  parseInternal brokenEngine Lines.SplitLines brokenText inputTemplate 0
  = Ret (brokenParsed, brokenErrors).
Proof. reflexivity. Qed.

Lemma parseInternal_misunderstood_stops_witness :
  0 < maxFixes
  /\ Parse opaqueEngine inputTemplate "x" = inr "boom"
  /\ ~ matchesGrammar "boom"
  /\ parseInternal opaqueEngine Lines.SplitLines "x" inputTemplate 0
     = Ret (inputTemplate,
            [mkTemplateError (-1) (-1) "boom" misunderstoodError]).
Proof.
  assert (H : ~ matchesGrammar "boom")
    by (apply not_matchesGrammar; reflexivity).
  split; [reflexivity|]. split; [reflexivity|]. split; [exact H|].
  exact (@parseInternal_misunderstood_stops opaqueEngine Lines.SplitLines
           "x" inputTemplate 0 "boom" eq_refl eq_refl H).
Defined.

Lemma parseInternal_clean_iff_witness :
  0 < maxFixes
  /\ Parse unclosedEngine inputTemplate "ok"
     = inl (mkMock "input template" [] (Some "ok"))
  /\ parseInternal unclosedEngine Lines.SplitLines "ok" inputTemplate 0
     = Ret (mkMock "input template" [] (Some "ok"), []).
Proof.
  split; [reflexivity|]. split; [reflexivity|].
  apply (proj2 (@parseInternal_clean_iff unclosedEngine Lines.SplitLines
                  "ok" inputTemplate (mkMock "input template" [] (Some "ok"))
                  0 eq_refl)).
  reflexivity.
Defined.

Lemma parseInternal_diagnostics_bounded_witness :
  parseInternal brokenEngine Lines.SplitLines brokenText inputTemplate 0
  = Ret (brokenParsed, brokenErrors)
  /\ Z.of_nat (List.length brokenErrors) <= Z.max 0 (maxFixes - 0).
Proof.
  split; [exact brokenText_result|].
  exact (@parseInternal_diagnostics_bounded brokenEngine Lines.SplitLines
           brokenText inputTemplate brokenParsed 0 brokenErrors
           brokenText_result).
Defined.

Lemma parseInternal_diagnostics_levels_witness :
  parseInternal brokenEngine Lines.SplitLines brokenText inputTemplate 0
  = Ret (brokenParsed, brokenErrors)
  /\ Forall wellFormed brokenErrors.
Proof.
  split; [exact brokenText_result|].
  exact (proj1 (@parseInternal_diagnostics_levels brokenEngine
                  Lines.SplitLines brokenText inputTemplate brokenParsed 0
                  brokenErrors brokenText_result)).
Defined.

(** ** The driver and the length of the text *)

(** What the pattern matched is a piece of the text. *)
Lemma FindStringSubmatch_length r (text m0 : string) (ms : list string) :
  FindStringSubmatch r text = m0 :: ms -> len m0 <= len text.
Proof.
  unfold FindStringSubmatch.
  destruct (findFrom r 0 text) as [[[b e] c]|] eqn:Hf; [|discriminate].
  intros Hm. inversion Hm; subst. clear Hm.
  apply findFrom_sound in Hf.
  destruct Hf as (pre & w & post & -> & _ & -> & ->).
  cbn [Nat.add]. rewrite span_middle. unfold len.
  rewrite !length_append. lia.
Qed.

Section SameLength.

Variable E : Engine.
Variable SplitLines : string -> list string.
Variables P1 P2 : Template E -> string -> Template E + string.

Lemma parseInternalFuel_same_length : forall fuel text t depth,
  len text <= fmt.maxWidth ->
  (forall t' text',
     String.length text' = String.length text -> P1 t' text' = P2 t' text') ->
  parseInternalFuel (withParse E P1) SplitLines fuel text t depth
  = parseInternalFuel (withParse E P2) SplitLines fuel text t depth.
Proof.
  induction fuel as [|fuel IH]; intros text t depth Hw H; [reflexivity|].
  cbn [parseInternalFuel]. unfold parseInternalBody.
  destruct (depth >=? maxFixes); [reflexivity|].
  cbn [Parse withParse]. rewrite (H t text eq_refl).
  destruct (P2 t text) as [p|err]; [reflexivity|].
  destruct (negb _); [|reflexivity].
  destruct (locateChar _ _) as [d| |]; cbn [bind]; try reflexivity.
  destruct (FindStringSubmatch functionNotFoundRegex _).
  - destruct (MatchString _ _); [|reflexivity].
    destruct (FindStringSubmatch firstEmptyCommandRegex text) as [|m0 ms]
      eqn:Hm; [reflexivity|].
    apply FindStringSubmatch_length in Hm.
    assert (Hlen : String.length
                     (strings.Replace1 text m0 (fmt.SprintfPad (len m0)))
                   = String.length text)
      by (apply heal_keeps_length; lia).
    destruct (index _ _); cbn [bind]; try reflexivity.
    rewrite IH; [reflexivity | unfold len in *; now rewrite Hlen |].
    intros t' text' Hlen'. apply H. now rewrite Hlen'.
  - unfold callFuncs. cbn [Funcs withParse].
    destruct (Funcs E t _); cbn [bind]; try reflexivity.
    now rewrite IH.
Qed.

(** X7: on a text of at most 10000009 bytes, the widest field that
    [Sprintf] pads, the healers never change the length of the text:
    what the driver returns for the text only depends on how the
    engine parses texts of that very length. *)
Theorem parseInternal_same_length
  (text : string) (t : Template E) (depth : Z) :
  len text <= fmt.maxWidth ->
  (forall t' text',
     String.length text' = String.length text -> P1 t' text' = P2 t' text') ->
  parseInternal (withParse E P1) SplitLines text t depth
  = parseInternal (withParse E P2) SplitLines text t depth.
Proof. intros Hw H. now apply parseInternalFuel_same_length. Qed.

End SameLength.

Lemma parseInternal_same_length_witness :
  len brokenText <= fmt.maxWidth
  /\ (forall t' text',
        String.length text' = String.length brokenText ->
        lengthBoundParse t' text' = Parse brokenEngine t' text')
  /\ parseInternal (withParse brokenEngine lengthBoundParse) Lines.SplitLines
                   brokenText inputTemplate 0
     = Ret (brokenParsed, brokenErrors).
Proof.
  assert (Hw : len brokenText <= fmt.maxWidth) by (vm_compute; discriminate).
  assert (H : forall t' text',
             String.length text' = String.length brokenText ->
             lengthBoundParse t' text' = Parse brokenEngine t' text').
  { intros t' text' Hlen. unfold lengthBoundParse.
    now rewrite Hlen, Nat.eqb_refl. }
  split; [exact Hw|]. split; [exact H|].
  rewrite (@parseInternal_same_length brokenEngine Lines.SplitLines
             lengthBoundParse (Parse brokenEngine) brokenText inputTemplate 0
             Hw H).
  reflexivity.
Defined.

(** ** The span the empty-command healer blanks *)

(** No match of the pattern starts before the one the search
    reports. *)
Lemma findFrom_leftmost r (pre : string) : forall pos w post new b e c,
  findFrom r pos (pre ++ w ++ post) = Some (b, e, c) ->
  Derives r 0 w new ->
  (b <= pos + String.length pre)%nat.
Proof.
  induction pre as [|a pre IH]; intros pos w post new b e c Hf Hd.
  - cbn [append] in Hf.
    destruct (Derives_shift Hd pos) as [new' Hd'].
    assert (Hrun : run r pos (w ++ post) [] accept <> None).
    { apply (run_complete Hd'). intros c'. discriminate. }
    destruct (w ++ post); cbn [findFrom] in Hf;
      destruct (run r pos _ [] accept) as [[e' c']|]; try congruence;
      inversion Hf; subst; simpl; lia.
  - cbn [append findFrom] in Hf.
    destruct (run r pos _ [] accept) as [[e' c']|].
    + inversion Hf; subst. simpl. lia.
    + pose proof (@IH (S pos) w post new b e c Hf Hd). simpl. lia.
Qed.

Lemma HasPrefix_append old post : strings.HasPrefix (old ++ post) old = true.
Proof.
  induction old as [|a old IH]; simpl; [now destruct post|].
  now rewrite Ascii.eqb_refl.
Qed.

Lemma drop_length_append (a b : string) : drop (String.length a) (a ++ b) = b.
Proof. induction a; simpl; auto. Qed.

(** [Replace1] rewrites the first occurrence. *)
Lemma Replace1_first (old new post : string) (pre : string) :
  (forall pre' post',
     pre ++ old ++ post = pre' ++ old ++ post' ->
     (String.length pre <= String.length pre')%nat) ->
  strings.Replace1 (pre ++ old ++ post) old new = pre ++ new ++ post.
Proof.
  induction pre as [|a pre IH]; intros Hmin.
  - cbn [append]. destruct (old ++ post) eqn:Hs; cbn [strings.Replace1];
      rewrite <- Hs, HasPrefix_append, drop_length_append; reflexivity.
  - cbn [append strings.Replace1].
    destruct (strings.HasPrefix (String a (pre ++ old ++ post)) old) eqn:Hp.
    + apply HasPrefix_split in Hp.
      specialize (Hmin EmptyString _ Hp). simpl in Hmin. lia.
    + f_equal. apply IH. intros pre' post' Heq.
      assert (Heq' : String a pre ++ old ++ post
                     = String a pre' ++ old ++ post')
        by (cbn [append]; now f_equal).
      specialize (Hmin _ _ Heq'). simpl in Hmin. lia.
Qed.

(** X8: [strings.Replace] with the text of the match hits the match
    itself: the empty-command healer rewrites exactly the span the
    pattern matched, the leftmost empty action, and leaves every byte
    before and after it as it was.  A span of at most 10000009 bytes
    becomes as many blanks; a longer one, too wide a field for
    [Sprintf], becomes the complaint of [Sprintf], and the text gets
    shorter. *)
Theorem heal_blanks_the_match (text : string) (lo hi : Z) (m0 : string)
        (ms : list string) :
  FindStringIndex firstEmptyCommandRegex text = Some (lo, hi) ->
  FindStringSubmatch firstEmptyCommandRegex text = m0 :: ms ->
  exists pre post,
    text = pre ++ m0 ++ post
    /\ len pre = lo /\ len m0 = hi - lo
    /\ strings.Replace1 text m0 (fmt.SprintfPad (len m0))
       = pre ++ (if len m0 <=? fmt.maxWidth
                 then fmt.blanks (String.length m0)
                 else fmt.noVerbExtra) ++ post.
Proof.
  unfold FindStringIndex, FindStringSubmatch.
  destruct (findFrom firstEmptyCommandRegex 0 text) as [[[b e] c]|] eqn:Hf;
    [|discriminate].
  intros Hi Hm. inversion Hi; subst. inversion Hm; subst. clear Hi Hm.
  pose proof Hf as Hs. apply findFrom_sound in Hs.
  destruct Hs as (pre & w & post & -> & Hd & -> & ->).
  simpl in Hd.
  assert (Hspan : span (pre ++ w ++ post) (String.length pre)
                       (String.length pre + String.length w) = w)
    by apply span_middle.
  cbn [Nat.add] in *. rewrite Hspan.
  exists pre, post. split; [reflexivity|]. split; [reflexivity|].
  split; [unfold len; lia|].
  replace (if len w <=? fmt.maxWidth
           then fmt.blanks (String.length w) else fmt.noVerbExtra)
    with (fmt.SprintfPad (len w)).
  2:{ destruct (Z.leb_spec (len w) fmt.maxWidth).
      - now apply SprintfPad_blanks.
      - now apply SprintfPad_too_wide. }
  apply Replace1_first. intros pre' post' Heq.
  rewrite Heq in Hf.
  destruct (Derives_shift Hd 0) as [new' Hd'].
  pose proof (@findFrom_leftmost _ pre' 0 w post' new' _ _ _ Hf Hd'). lia.
Qed.

Lemma heal_blanks_the_match_witness :
  FindStringIndex firstEmptyCommandRegex "a{{}}b {{}}" = Some (1, 5)
  /\ FindStringSubmatch firstEmptyCommandRegex "a{{}}b {{}}"
     = ["{{}}"; EmptyString; EmptyString; EmptyString]
  /\ exists pre post,
       "a{{}}b {{}}" = pre ++ "{{}}" ++ post
       /\ len pre = 1 /\ len "{{}}" = 5 - 1
       /\ strings.Replace1 "a{{}}b {{}}" "{{}}" (fmt.SprintfPad (len "{{}}"))
          = pre ++ (if len "{{}}" <=? fmt.maxWidth
                    then fmt.blanks (String.length "{{}}")
                    else fmt.noVerbExtra) ++ post.
Proof.
  split; [reflexivity|]. split; [reflexivity|].
  exact (@heal_blanks_the_match "a{{}}b {{}}" 1 5 "{{}}"
           [EmptyString; EmptyString; EmptyString] eq_refl eq_refl).
Defined.

(** ** When the driver returns *)




(** ** What [exec] prints *)

(** X10: [exec] prints at most one line, and only for a failure it
    reports: the line is an expression that starts with a dot and
    stands between angle brackets in the description of the
    diagnostic. *)
Theorem exec_prints_expression
  (E : Engine) (t : Template E) (data : Data E) (buf p : string) :
  In p (execStdout (exec E t data buf)) ->
  execStdout (exec E t data buf) = [p]
  /\ exists out msg x,
       Execute E t data = (out, Some msg)
       /\ execErrs (exec E t data buf)
          = [createTemplateError msg execErrorLevel]
       /\ p = "." ++ x /\ x <> EmptyString
       /\ contains (Description (createTemplateError msg execErrorLevel))
                   ("<" ++ p ++ ">").
Proof.
  unfold exec. destruct (Execute E t data) as [out [msg|]]; [|intros []].
  destruct (String.eqb msg _); [intros []|].
  set (desc := Description (createTemplateError msg execErrorLevel)).
  unfold FindStringSubmatch.
  destruct (findFrom findExprRegex 0 desc) as [[[b e] c]|] eqn:Hf;
    [|intros []].
  change (NumSubexp findExprRegex) with 1%nat.
  cbn [seq map List.length Nat.eqb nth execStdout execErrs In].
  intros [Hp | []]. split; [now rewrite Hp|].
  apply findFrom_sound in Hf.
  destruct Hf as (pre & w & post & Hdesc & Hd & -> & _).
  simpl in Hd. unfold findExprRegex in Hd.
  apply Derives_Cat in Hd as (l1 & r1 & c1 & d1 & -> & -> & H1 & Hd).
  apply Derives_Lit in H1 as [-> ->].
  apply Derives_Cat in Hd as (g & l2 & c2 & d2 & -> & -> & H2 & H3).
  apply Derives_Lit in H3 as [-> ->].
  apply Derives_Group in H2 as (c3 & -> & H2).
  apply Derives_Cat in H2 as (l3 & x & c4 & d4 & -> & -> & H4 & H5).
  apply Derives_Lit in H4 as [-> ->].
  apply Derives_Plus in H5 as (Hx0 & Hx & ->).
  cbn [app submatch lookup Nat.eqb] in Hp.
  assert (Hsub : span desc (String.length pre + String.length "<")
                   (String.length pre + String.length "<"
                    + String.length ("." ++ x)) = "." ++ x).
  { rewrite Hdesc. cut_span (pre ++ "<") (">" ++ post). }
  rewrite Hsub in Hp. subst p.
  exists out, msg, x. repeat split; auto.
  exists pre, post. fold desc. rewrite Hdesc. now rewrite !append_assoc.
Qed.

Lemma exec_prints_expression_witness :
  In ".Name" (execStdout (exec nilFieldEngine inputTemplate tt EmptyString))
  /\ execStdout (exec nilFieldEngine inputTemplate tt EmptyString) = [".Name"].
Proof.
  assert (H : In ".Name"
                 (execStdout (exec nilFieldEngine inputTemplate tt
                                   EmptyString)))
    by (left; reflexivity).
  split; [exact H|].
  exact (proj1 (@exec_prints_expression nilFieldEngine inputTemplate tt
                  EmptyString ".Name" H)).
Defined.

(** ** The helper [intRange] *)

Lemma wrapInt_id x : minInt <= x <= maxInt -> wrapInt x = x.
Proof.
  unfold wrapInt, minInt, maxInt. intros H.
  rewrite Z.mod_small; lia.
Qed.

Lemma wrapInt_range x : minInt <= wrapInt x <= maxInt.
Proof.
  unfold wrapInt, minInt, maxInt.
  pose proof (Z.mod_pos_bound (x + 2 ^ 63) (2 ^ 64) ltac:(lia)). lia.
Qed.

Lemma in_map_seq (f : nat -> Z) n x :
  In x (map f (seq 0 n)) <-> exists i, (i < n)%nat /\ x = f i.
Proof.
  rewrite in_map_iff. split.
  - intros (i & <- & Hi). apply in_seq in Hi. exists i. split; [lia | auto].
  - intros (i & Hi & ->). exists i. split; [auto | apply in_seq; lia].
Qed.

(** X11: for [start <= end + 1], with every number in the range of
    [int] and a length that [make] grants, [intRange] returns the
    numbers from [start] to [end] in ascending order: [end - start + 1]
    entries, the entry at index [i] being [start + i]; the list is
    empty for [end = start - 1]. *)
Theorem intRange_enumerates (makeLimit start end_ : Z) :
  minInt <= start <= maxInt -> minInt <= end_ <= maxInt ->
  start <= end_ + 1 -> end_ - start + 1 <= makeLimit ->
  end_ - start < maxInt ->
  exists l,
    intRange makeLimit start end_ = Some l
    /\ Z.of_nat (List.length l) = end_ - start + 1
    /\ (forall i, (i < List.length l)%nat -> nth i l 0 = start + Z.of_nat i)
    /\ (forall x, In x l <-> start <= x <= end_).
Proof.
  intros Hs He Hle Hlim Hov. unfold intRange.
  assert (Hmm : minInt = - 2 ^ 63 /\ maxInt = 2 ^ 63 - 1) by (split; reflexivity).
  rewrite (@wrapInt_id (end_ - start)) by lia.
  rewrite (@wrapInt_id (end_ - start + 1)) by lia.
  destruct (Z.ltb_spec (end_ - start + 1) 0); [lia|].
  destruct (Z.ltb_spec makeLimit (end_ - start + 1)); [lia|].
  cbn [orb]. eexists. split; [reflexivity|].
  assert (Hnth : forall i, (i < Z.to_nat (end_ - start + 1))%nat ->
                   wrapInt (start + Z.of_nat i) = start + Z.of_nat i).
  { intros i Hi. apply wrapInt_id. lia. }
  split; [|split].
  - rewrite length_map, length_seq. lia.
  - intros i Hi. rewrite length_map, length_seq in Hi.
    rewrite (nth_indep _ 0 (wrapInt (start + Z.of_nat 0)))
      by (rewrite length_map, length_seq; lia).
    rewrite (map_nth (fun i => wrapInt (start + Z.of_nat i))).
    rewrite seq_nth by lia. cbn [Nat.add]. now apply Hnth.
  - intros x. rewrite in_map_seq. split.
    + intros (i & Hi & ->). rewrite Hnth by exact Hi. lia.
    + intros Hx. exists (Z.to_nat (x - start)). split; [lia|].
      rewrite Hnth by lia. lia.
Qed.

Lemma intRange_enumerates_witness :
  exists l,
    intRange 1000 3 6 = Some l
    /\ Z.of_nat (List.length l) = 6 - 3 + 1
    /\ (forall i, (i < List.length l)%nat -> nth i l 0 = 3 + Z.of_nat i)
    /\ (forall x, In x l <-> 3 <= x <= 6).
Proof.
  apply (@intRange_enumerates 1000 3 6);
    unfold minInt, maxInt; lia.
Defined.

(** X12: [intRange] does not answer a reversed range with an empty
    list: for [end < start - 1] the length handed to [make] is
    negative and the call panics. *)
Theorem intRange_reversed_panics (makeLimit start end_ : Z) :
  minInt <= start <= maxInt -> minInt <= end_ <= maxInt ->
  end_ + 1 < start -> minInt <= end_ - start ->
  intRange makeLimit start end_ = None.
Proof.
  intros Hs He Hlt Hov. unfold intRange.
  assert (Hmm : minInt = - 2 ^ 63 /\ maxInt = 2 ^ 63 - 1) by (split; reflexivity).
  rewrite (@wrapInt_id (end_ - start)) by lia.
  rewrite (@wrapInt_id (end_ - start + 1)) by lia.
  destruct (Z.ltb_spec (end_ - start + 1) 0); [reflexivity | lia].
Qed.

Lemma intRange_reversed_panics_witness : intRange 1000 5 2 = None.
Proof.
  apply (@intRange_reversed_panics 1000 5 2); unfold minInt, maxInt; lia.
Defined.

(** ** The helper [split] *)

Lemma substring_length_append (a b : string) :
  substring 0 (String.length a) (a ++ b) = a.
Proof.
  induction a as [|x a IH]; simpl.
  - now destruct b.
  - now rewrite IH.
Qed.

Lemma drop_add (j k : nat) : forall s, drop (j + k) s = drop k (drop j s).
Proof.
  induction j as [|j IH]; intros s; simpl; [reflexivity|].
  destruct s; [now destruct k | apply IH].
Qed.

Lemma substring_drop (j : nat) : forall s, substring 0 j s ++ drop j s = s.
Proof.
  induction j as [|j IH]; intros [|x s]; simpl; auto.
  now rewrite IH.
Qed.

Lemma substring_length (j : nat) : forall s,
  (j <= String.length s)%nat -> String.length (substring 0 j s) = j.
Proof.
  induction j as [|j IH]; intros [|x s] H; simpl in *; auto; try lia.
  rewrite IH; lia.
Qed.

Lemma contains_HasPrefix (pre sub post : string) :
  strings.HasPrefix (drop (String.length pre) (pre ++ sub ++ post)) sub = true.
Proof. rewrite drop_length_append. apply HasPrefix_append. Qed.

(** The result of [strings.Index]: the first occurrence, or none. *)
Lemma Index_cases (s sep : string) :
  (strings.Index s sep = -1 /\ ~ contains s sep)
  \/ exists pre post,
       s = pre ++ sep ++ post /\ strings.Index s sep = len pre
       /\ forall pre' post', s = pre' ++ sep ++ post' ->
                             (String.length pre <= String.length pre')%nat.
Proof.
  unfold strings.Index.
  destruct (IndexFrom_spec sep s (Z.le_refl 0))
    as [[Hi Hnone] | (j & Hi & Hj & Hocc & Hfirst)].
  - left. split; [exact Hi|]. intros (pre & post & Hs).
    specialize (Hnone (String.length pre)).
    rewrite Hs, contains_HasPrefix in Hnone.
    rewrite length_append in Hnone.
    assert (true = false) by (apply Hnone; lia). discriminate.
  - right. exists (substring 0 j s), (drop (String.length sep) (drop j s)).
    split; [|split].
    + rewrite <- (HasPrefix_split _ _ Hocc). symmetry. apply substring_drop.
    + rewrite Hi. unfold len. rewrite substring_length by exact Hj. lia.
    + intros pre' post' Hs. rewrite substring_length by exact Hj.
      destruct (Nat.le_gt_cases j (String.length pre')) as [|Hlt]; [auto|].
      specialize (Hfirst _ Hlt).
      rewrite Hs, contains_HasPrefix in Hfirst. discriminate.
Qed.

Lemma append_inj_length (a b c d : string) :
  (a ++ b = c ++ d) -> String.length a = String.length c -> a = c /\ b = d.
Proof.
  revert c. induction a as [|x a IH]; intros [|y c] H Hl; simpl in *;
    try discriminate; auto.
  inversion H; subst. destruct (IH c) as [-> ->]; auto.
Qed.

(** One round of the loop of [strings.Split]. *)
Lemma genSplit_step (fuel : nat) (pre sep post : string) :
  (forall pre' post', pre ++ sep ++ post = pre' ++ sep ++ post' ->
                      (String.length pre <= String.length pre')%nat) ->
  strings.genSplit (S fuel) (pre ++ sep ++ post) sep
  = pre :: strings.genSplit fuel post sep.
Proof.
  intros Hfirst. cbn [strings.genSplit].
  destruct (Index_cases (pre ++ sep ++ post) sep)
    as [[_ Hno] | (pre1 & post1 & Hs & Hi & Hfirst1)].
  { exfalso. apply Hno. now exists pre, post. }
  assert (Hlen : String.length pre1 = String.length pre).
  { apply Nat.le_antisymm; [eapply Hfirst1; reflexivity | eapply Hfirst; eauto]. }
  rewrite Hi. unfold len.
  destruct (Z.ltb_spec (Z.of_nat (String.length pre1)) 0); [lia|].
  rewrite Nat2Z.id, Hlen. rewrite substring_length_append.
  rewrite drop_add, drop_length_append, drop_length_append. reflexivity.
Qed.

Lemma genSplit_none (fuel : nat) (s sep : string) :
  ~ contains s sep -> strings.genSplit fuel s sep = [s].
Proof.
  intros Hno. destruct fuel; cbn [strings.genSplit]; [reflexivity|].
  destruct (Index_cases s sep) as [[-> _] | (pre & post & Hs & _)].
  - reflexivity.
  - exfalso. apply Hno. now exists pre, post.
Qed.

Lemma genSplit_cases (fuel : nat) (s sep : string) :
  (~ contains s sep /\ strings.genSplit (S fuel) s sep = [s])
  \/ exists pre post,
       s = pre ++ sep ++ post
       /\ (forall pre' post', s = pre' ++ sep ++ post' ->
                              (String.length pre <= String.length pre')%nat)
       /\ strings.genSplit (S fuel) s sep
          = pre :: strings.genSplit fuel post sep.
Proof.
  destruct (Index_cases s sep) as [[_ Hno] | (pre & post & Hs & _ & Hfirst)].
  - left. split; [exact Hno | now apply genSplit_none].
  - right. exists pre, post. repeat split; auto.
    rewrite Hs at 1. apply genSplit_step. now rewrite <- Hs.
Qed.

Lemma genSplit_nonempty (fuel : nat) (s sep : string) :
  strings.genSplit fuel s sep <> [].
Proof.
  destruct fuel; [discriminate|].
  destruct (genSplit_cases fuel s sep) as [[_ ->] | (pre & post & _ & _ & ->)];
    discriminate.
Qed.

Lemma joinWith_cons (sep p : string) (ps : list string) :
  ps <> [] -> joinWith sep (p :: ps) = p ++ sep ++ joinWith sep ps.
Proof. destruct ps; [congruence | reflexivity]. Qed.

(** Joining the parts gives the text back, whatever the fuel. *)
Lemma genSplit_join (sep : string) : forall fuel s,
  joinWith sep (strings.genSplit fuel s sep) = s.
Proof.
  induction fuel as [|fuel IH]; intros s; [reflexivity|].
  destruct (genSplit_cases fuel s sep)
    as [[_ ->] | (pre & post & Hs & _ & ->)]; [reflexivity|].
  rewrite joinWith_cons by apply genSplit_nonempty.
  now rewrite IH.
Qed.

(** A part before the first separator holds no separator. *)
Lemma first_part_free (pre sep post : string) :
  sep <> EmptyString ->
  (forall pre' post', pre ++ sep ++ post = pre' ++ sep ++ post' ->
                      (String.length pre <= String.length pre')%nat) ->
  ~ contains pre sep.
Proof.
  intros Hsep Hfirst (a & b & Hpre).
  specialize (Hfirst a (b ++ sep ++ post)).
  rewrite Hpre, !append_assoc in Hfirst. specialize (Hfirst eq_refl).
  rewrite !length_append in Hfirst.
  destruct sep; [congruence|]. simpl in Hfirst. lia.
Qed.

(** With a separator that is not empty the loop ends before the fuel
    does, and no part holds the separator. *)
Lemma genSplit_parts (sep : string) :
  sep <> EmptyString ->
  forall fuel s p,
    (String.length s < fuel)%nat ->
    In p (strings.genSplit fuel s sep) -> ~ contains p sep.
Proof.
  intros Hsep. induction fuel as [|fuel IH]; intros s p Hfuel Hin; [lia|].
  destruct (genSplit_cases fuel s sep)
    as [[Hno Hg] | (pre & post & Hs & Hfirst & Hg)]; rewrite Hg in Hin.
  - destruct Hin as [<- | []]. exact Hno.
  - destruct Hin as [<- | Hin].
    + rewrite Hs in Hfirst. now apply first_part_free with (post := post).
    + apply (IH post); [|exact Hin].
      rewrite Hs, !length_append in Hfuel.
      destruct sep; [congruence|]. simpl in Hfuel. lia.
Qed.

(** More fuel than the loop needs changes nothing. *)
Lemma genSplit_fuel (sep : string) :
  sep <> EmptyString ->
  forall fuel fuel' s,
    (String.length s < fuel)%nat -> (String.length s < fuel')%nat ->
    strings.genSplit fuel s sep = strings.genSplit fuel' s sep.
Proof.
  intros Hsep. induction fuel as [|fuel IH]; intros fuel' s H H'; [lia|].
  destruct fuel' as [|fuel']; [lia|].
  destruct (genSplit_cases fuel s sep)
    as [[Hno Hg] | (pre & post & Hs & Hfirst & Hg)]; rewrite Hg.
  - now rewrite genSplit_none.
  - subst s. rewrite genSplit_step by exact Hfirst.
    f_equal. rewrite !length_append in H, H'.
    destruct sep; [congruence|]. simpl in H, H'. apply IH; lia.
Qed.

Lemma append_overlap (a : string) : forall b c d,
  a ++ b = c ++ d -> (String.length c <= String.length a)%nat ->
  exists x, a = c ++ x /\ d = x ++ b.
Proof.
  induction a as [|y a IH]; intros b c d H Hl.
  - destruct c; [|simpl in Hl; lia]. exists EmptyString. now simpl in *.
  - destruct c as [|z c].
    + exists (String y a). now simpl in *.
    + simpl in H, Hl. inversion H; subst.
      destruct (IH b c d) as (x & -> & ->); [auto | lia|].
      now exists x.
Qed.

(** The separator of [split] does not overlap itself: after a part
    without a separator the first separator is the one that follows
    the part. *)
Lemma colon_blank_first (pre post pre' post' : string) :
  ~ contains pre ": " ->
  pre ++ ": " ++ post = pre' ++ ": " ++ post' ->
  (String.length pre <= String.length pre')%nat.
Proof.
  intros Hno Heq.
  destruct (Nat.le_gt_cases (String.length pre) (String.length pre'))
    as [|Hlt]; [auto|]. exfalso.
  destruct (@append_overlap pre (": " ++ post) pre' (": " ++ post') Heq)
    as (x & Hpre & Hx); [lia|].
  assert (Hx0 : x <> EmptyString).
  { intros ->. rewrite Hpre, append_nil_r in Hlt. lia. }
  destruct x as [|c0 [|c1 x]]; [congruence| |].
  - simpl in Hx. inversion Hx.
  - simpl in Hx. inversion Hx; subst c0 c1.
    apply Hno. exists pre', x. rewrite Hpre. reflexivity.
Qed.

(** X13: [split] cuts at every colon followed by a blank and at
    nothing else: joining the parts with that separator gives the text
    back, no part holds the separator, and there is always at least
    one part. *)
Theorem split_round_trip (s : string) :
  joinWith ": " (split s) = s
  /\ split s <> []
  /\ forall p, In p (split s) -> ~ contains p ": ".
Proof.
  unfold split, strings.Split. split; [apply genSplit_join|].
  split; [apply genSplit_nonempty|].
  intros p. apply genSplit_parts; [discriminate | lia].
Qed.

(** X14: [split] works from the left: a text without the separator is
    its own single part, and a text that starts with a part without
    separator, followed by the separator, gives that part and then the
    parts of what follows the separator. *)
Theorem split_unfold (s : string) :
  (~ contains s ": " -> split s = [s])
  /\ forall pre post,
       s = pre ++ ": " ++ post -> ~ contains pre ": " ->
       split s = pre :: split post.
Proof.
  unfold split, strings.Split. split; [apply genSplit_none|].
  intros pre post -> Hpre.
  rewrite genSplit_step.
  - f_equal. apply genSplit_fuel; [discriminate | | lia].
    rewrite !length_append. simpl. lia.
  - intros pre' post'. now apply colon_blank_first.
Qed.

Lemma split_unfold_witness :
  ~ contains "line 3" ": "
  /\ split "line 3: unexpected EOF" = ["line 3"; "unexpected EOF"].
Proof.
  assert (Hno : ~ contains "line 3" ": ").
  { intros (pre & post & H).
    assert (Hp : strings.HasPrefix (drop (String.length pre) "line 3") ": "
                 = true)
      by (rewrite H; apply contains_HasPrefix).
    assert (Hl : (String.length pre <= 4)%nat).
    { apply (f_equal String.length) in H. rewrite !length_append in H.
      simpl in H. lia. }
    do 5 (destruct pre as [|? pre]; [discriminate Hp|]). simpl in Hl. lia. }
  split; [exact Hno|].
  rewrite (proj2 (split_unfold "line 3: unexpected EOF")
             "line 3" "unexpected EOF" eq_refl Hno).
  reflexivity.
Defined.

(** ** Building the page *)

Lemma exec_errs_bounded (E : Engine) (t : Template E) (data : Data E)
      (buf : string) :
  (List.length (execErrs (exec E t data buf)) <= 1)%nat
  /\ (List.length (execStdout (exec E t data buf)) <= 1)%nat
  /\ Forall (fun d => -1 <= Line d /\ -1 <= Char d)
            (execErrs (exec E t data buf)).
Proof.
  unfold exec. destruct (Execute E t data) as [out [msg|]];
    [|cbn; auto].
  destruct (String.eqb msg _); [cbn; auto|].
  assert (Hd : -1 <= Line (createTemplateError msg execErrorLevel)
               /\ -1 <= Char (createTemplateError msg execErrorLevel)).
  { destruct (createTemplateError_cases msg execErrorLevel) as [-> | H].
    - cbn. lia.
    - destruct H as (pre & name & line & char & desc & post
                     & _ & _ & Hline & Hchar & _ & ->).
      cbn [Line Char]. split;
        [now apply storedLine_lower | now apply storedChar_lower]. }
  destruct (Nat.eqb _ 2); cbn; repeat split; auto.
Qed.

Section Page.

Variable E : Engine.
Variable SplitLines : string -> list string.
Variable CountDigits : Z -> Z.
Variable TrimSpace : string -> string.
Variable New : string -> Template E.
Variable Unmarshal : string -> Data E * option string.
Variable nilData : Data E.

Local Abbreviation register := (registerFunction E TrimSpace).
Local Abbreviation build :=
  (createData E SplitLines CountDigits TrimSpace New Unmarshal nilData).

Lemma rejectedName_weaken names names' d :
  incl names names' ->
  rejectedName E TrimSpace names d -> rejectedName E TrimSpace names' d.
Proof.
  intros Hincl (fn & t0 & Hin & Hf & Hd). exists fn, t0. auto.
Qed.

Lemma register_loop : forall names t errs,
  exists extra,
    snd (fold_left register names (t, errs)) = (errs ++ extra)%list
    /\ (List.length extra <= List.length names)%nat
    /\ Forall (rejectedName E TrimSpace names) extra
    /\ Forall (fun d => Line d = -1 /\ Char d = -1
                        /\ Level d = misunderstoodError) extra.
Proof.
  induction names as [|fn names IH]; intros t errs.
  - exists []. cbn. rewrite app_nil_r. auto.
  - cbn [fold_left]. unfold registerFunction at 2.
    destruct (Funcs E t (TrimSpace fn)) as [t'|] eqn:Hf.
    + destruct (IH t' errs) as (extra & Hs & Hl & Hall & Hpos).
      exists extra. split; [exact Hs|]. split; [cbn; lia|].
      split; [|exact Hpos].
      eapply Forall_impl; [|exact Hall].
      intros d. apply rejectedName_weaken. now apply incl_tl.
    + destruct (IH t (errs ++ [badFunctionName (TrimSpace fn)])%list)
        as (extra & Hs & Hl & Hall & Hpos).
      exists (badFunctionName (TrimSpace fn) :: extra).
      split; [now rewrite Hs, <- app_assoc|]. split; [cbn; lia|].
      split; constructor; auto.
      * exists fn, t. repeat split; auto. now left.
      * eapply Forall_impl; [|exact Hall].
        intros d. apply rejectedName_weaken. now apply incl_tl.
Qed.

(** X15: the loop of [createData] over the function names never
    fails: it keeps the diagnostics it started with and adds, in the
    order of the names, one Misunderstood diagnostic without position
    for each trimmed name that [Funcs] rejected, and nothing else; it
    adds none when [Funcs] takes every name. *)
Theorem registerFunction_loop (names : list string) (t : Template E)
        (errs : list templateError) :
  exists extra,
    snd (fold_left register names (t, errs)) = (errs ++ extra)%list
    /\ (List.length extra <= List.length names)%nat
    /\ Forall (rejectedName E TrimSpace names) extra
    /\ Forall (fun d => Line d = -1 /\ Char d = -1
                        /\ Level d = misunderstoodError) extra
    /\ ((forall fn t0, In fn names -> Funcs E t0 (TrimSpace fn) <> None)
        -> extra = []).
Proof.
  destruct (register_loop names t errs) as (extra & Hs & Hl & Hall & Hpos).
  exists extra. repeat split; auto.
  intros Hgood. destruct extra as [|d extra]; [reflexivity|].
  inversion Hall as [|? ? (fn & t0 & Hin & Hf & _) _]; subst.
  now destruct (Hgood fn t0 Hin).
Qed.

(** X16: [createData] adds no failure of its own to those of the
    driver: when [parse] returns for the text, so does [createData].
    The page then shows the lines of the text and the diagnostics the
    application holds; these are the ones held before the call
    followed by at most one for the data, one for each function name,
    [maxFixes] for the parse and one for the execution, each with line
    and character at -1 or above; at most one expression is
    printed. *)
Theorem createData_report (old : list templateError)
        (text rawData rawFns : string) :
  (forall t, exists r, parse E SplitLines text t = Ret r) ->
  exists c new,
    build old text rawData rawFns = Ret c
    /\ appErrs c = (old ++ new)%list
    /\ Errors (page c) = appErrs c
    /\ TextLines (page c) = SplitLines text
    /\ Z.of_nat (List.length new)
       <= 1 + Z.of_nat (List.length (functionNames rawFns)) + maxFixes + 1
    /\ Forall (fun d => -1 <= Line d /\ -1 <= Char d) new
    /\ (List.length (printed c) <= 1)%nat.
Proof.
  intros Hparse. unfold createData.
  set (st := if negb (String.eqb rawData EmptyString) then _ else _).
  assert (Hst : exists dataErrs,
            snd st = (old ++ dataErrs)%list
            /\ (List.length dataErrs <= 1)%nat
            /\ Forall (fun d => -1 <= Line d /\ -1 <= Char d) dataErrs).
  { subst st. destruct (negb _).
    - destruct (Unmarshal rawData) as [d [err|]].
      + exists [badData err]. cbn. repeat split; auto.
        constructor; [cbn; lia | constructor].
      + exists []. cbn. rewrite app_nil_r. auto.
    - exists []. cbn. rewrite app_nil_r. auto. }
  destruct st as [data errs0]. destruct Hst as (dataErrs & Hd & Hdl & Hdw).
  cbn [snd] in Hd. subst errs0.
  destruct (register_loop (functionNames rawFns)
              (New "input template") (old ++ dataErrs)%list)
    as (fnErrs & Hf & Hfl & _ & Hfw).
  destruct (fold_left register (functionNames rawFns)
              (New "input template", (old ++ dataErrs)%list))
    as [t errs1].
  cbn [snd] in Hf. subst errs1.
  destruct (Hparse t) as [[pt perrs] Hp]. rewrite Hp. cbn [bind].
  pose proof (@parseInternal_bounded E SplitLines _ text t 0 eq_refl) as Hb.
  unfold parse in Hp. rewrite Hp in Hb. cbn in Hb.
  destruct Hb as (Hpl & Hpw & _).
  destruct (exec_errs_bounded E pt data EmptyString) as (Hel & Hso & Hew).
  eexists. exists (dataErrs ++ fnErrs ++ perrs
                   ++ execErrs (exec E pt data EmptyString))%list.
  split; [reflexivity|]. cbn [appErrs page Errors TextLines printed].
  split; [now rewrite <- !app_assoc|].
  split; [reflexivity|]. split; [reflexivity|].
  split; [|split; [|exact Hso]].
  - rewrite !length_app. unfold maxFixes. lia.
  - rewrite !Forall_app. repeat split; auto.
    + eapply Forall_impl; [|exact Hfw]. cbn. intros d (-> & -> & _). lia.
    + eapply Forall_impl; [|exact Hpw]. intros d (H1 & H2 & _). auto.
Qed.

End Page.

Lemma createData_report_witness :
  (forall t, exists r,
      parse pickyEngine Lines.SplitLines "hello" t = Ret r)
  /\ exists c new,
       createData pickyEngine Lines.SplitLines (fun n => n) trimBlanks
                  newMock (fun _ => (tt, None)) tt
                  [] "hello" EmptyString "f, 1x" = Ret c
       /\ appErrs c = ([] ++ new)%list
       /\ Errors (page c) = appErrs c
       /\ TextLines (page c) = Lines.SplitLines "hello"
       /\ Z.of_nat (List.length new)
          <= 1 + Z.of_nat (List.length (functionNames "f, 1x")) + maxFixes + 1
       /\ Forall (fun d => -1 <= Line d /\ -1 <= Char d) new
       /\ (List.length (printed c) <= 1)%nat.
Proof.
  assert (H : forall t, exists r,
             parse pickyEngine Lines.SplitLines "hello" t = Ret r)
    by (intros t; eexists; reflexivity).
  split; [exact H|].
  exact (@createData_report pickyEngine Lines.SplitLines (fun n => n)
           trimBlanks newMock (fun _ => (tt, None)) tt
           [] "hello" EmptyString "f, 1x" H).
Defined.
